(** * Ewald2: Ewald summation kernels of exafmm/minimal (uniform/ewald2.h)

    A shallow embedding of the class [Ewald2] and of the properties its
    specification states.

    Modelling conventions.
    - [real_t] is the type of ideal real numbers: every arithmetic
      operation is exact, rounding is out of scope.  [std::sqrt],
      [std::exp], [std::cos], [std::sin] are the functions of the real
      number library; [erfc] (libm) is a parameter of the development.
    - [int] is a 32-bit two's complement integer, carried by [Z] with the
      wrap-around of every operation written out ([int_add], [int_mul]).
      The conversion of an [int] to [real_t] is exact ([IZR]).
    - [B_iter] and [C_iter] are indices; a raw array ([vec4 *]) and the body
      storage reached through [B_iter] are maps from indices to values.
    - Whether a division is by zero depends on the values the code computes
      in floating point: for that question [dipoleCorrection] is modelled
      once more in binary64 (module [F64]). *)

From Stdlib Require Import ZArith List Bool Lia Reals Lra.
From Stdlib Require Import Permutation.
From Stdlib Require PrimFloat Uint63 FloatOps FloatAxioms SpecFloat.
Import ListNotations.

Open Scope R_scope.

(** ** Scalars *)

Abbreviation real_t := R.

Definition M_PI : real_t := PI.

(** [M_2_SQRTPI] of <cmath>: 2/sqrt(pi). *)
Definition M_2_SQRTPI : real_t := 2 / sqrt PI.

(** Comparisons of [real_t] values, as booleans. *)
Definition Rltb (x y : real_t) : bool := if Rlt_dec x y then true else false.
Definition Rleb (x y : real_t) : bool := if Rle_dec x y then true else false.
Definition Reqb (x y : real_t) : bool := if Req_dec_T x y then true else false.

(** 32-bit signed integers. *)
Definition INT_MAX : Z := 2147483647.
Definition int_wrap (z : Z) : Z := ((z + 2 ^ 31) mod 2 ^ 32 - 2 ^ 31)%Z.
Definition int_add (a b : Z) : Z := int_wrap (a + b).
Definition int_mul (a b : Z) : Z := int_wrap (a * b).
Definition int_neg (a : Z) : Z := int_wrap (- a).

(** The values [lo, lo+1, ..., hi] a loop [for (int v=lo; v<=hi; v++)] runs
    through (none when [hi < lo]).  The counter itself never wraps as long
    as [hi < INT_MAX]. *)
Definition int_range (lo hi : Z) : list Z :=
  map (fun i => (lo + Z.of_nat i)%Z) (seq 0 (Z.to_nat (hi + 1 - lo))).

(** ** Small vectors (types.h: [vec3], [vec4] over [real_t]) *)

Record vec3 : Type := mkvec3 { v0 : real_t; v1 : real_t; v2 : real_t }.
Record vec4 : Type :=
  mkvec4 { w0 : real_t; w1 : real_t; w2 : real_t; w3 : real_t }.

Definition vec3_zero : vec3 := mkvec3 0 0 0.
Definition vec4_zero : vec4 := mkvec4 0 0 0 0.

Definition vec3_add (a b : vec3) : vec3 :=
  mkvec3 (v0 a + v0 b) (v1 a + v1 b) (v2 a + v2 b).
Definition vec3_sub (a b : vec3) : vec3 :=
  mkvec3 (v0 a - v0 b) (v1 a - v1 b) (v2 a - v2 b).
(** Componentwise product, [W->K * scale]. *)
Definition vec3_mul (a b : vec3) : vec3 :=
  mkvec3 (v0 a * v0 b) (v1 a * v1 b) (v2 a * v2 b).
(** Product with a scalar, [(B->X - X0) * s]. *)
Definition vec3_scale (a : vec3) (s : real_t) : vec3 :=
  mkvec3 (v0 a * s) (v1 a * s) (v2 a * s).
Definition vec4_add (a b : vec4) : vec4 :=
  mkvec4 (w0 a + w0 b) (w1 a + w1 b) (w2 a + w2 b) (w3 a + w3 b).

(** Modelled from the spec: [norm] of types.h/vec.h is not part of the
    sources; the spec reads [norm(dX)] as the squared length, R^2 = |dX|^2.
    The loop of the vector class starts from 0 and adds the squares in
    index order. *)
Definition norm (a : vec3) : real_t :=
  0 + v0 a * v0 a + v1 a * v1 a + v2 a * v2 a.

(** ** Data model *)

Definition B_iter := nat.
Definition C_iter := nat.

(** Modelled from the spec: [Body] of types.h (position, source strength,
    target accumulator of potential and three force components, and the
    bookkeeping fields [initTarget] sets). *)
Module Body.
Record t : Type := mk {
  X : vec3;
  SRC : real_t;
  TRG : vec4;
  IBODY : Z;
  ICELL : Z;
  WEIGHT : real_t
}.
Definition set_TRG (B : t) (T : vec4) : t :=
  mk (X B) (SRC B) T (IBODY B) (ICELL B) (WEIGHT B).
End Body.

(** Modelled from the spec: [Cell] of types.h (bounding sphere, the range of
    bodies of a leaf, the range of child cells, the child count). *)
Module Cell.
Record t : Type := mk {
  X : vec3;
  R : real_t;
  BODY : B_iter;
  NBODY : nat;
  ICHILD : nat;
  NCHILD : nat
}.
End Cell.

Module Wave.
Record t : Type := mk {
  K : vec3;
  REAL : real_t;
  IMAG : real_t
}.
End Wave.

Definition Bodies := list Body.t.
Definition Cells := list Cell.t.
Definition Waves := list Wave.t.

(** Storage reached through a [B_iter] or a [vec4 *]. *)
Definition BodyMem := B_iter -> Body.t.
Definition Vec4Mem := nat -> vec4.

Definition upd {A : Type} (m : nat -> A) (i : nat) (a : A) : nat -> A :=
  fun k => if Nat.eqb k i then a else m k.

(** ** Errors of the traversal *)

Inductive Err : Type :=
| OutOfFuel
| OutOfRange.

Inductive result (A : Type) : Type :=
| Ok (a : A)
| Stuck (e : Err).
Arguments Ok {A} a.
Arguments Stuck {A} e.

(** [for (x : xs) body(x)] in the error monad. *)
Fixpoint for_each {A S : Type} (xs : list A) (body : A -> S -> result S)
  (st : S) : result S :=
  match xs with
  | [] => Ok st
  | x :: xs' =>
      match body x st with
      | Ok st' => for_each xs' body st'
      | Stuck e => Stuck e
      end
  end.

(** ** The class, over its configuration *)

Section Ewald2.

Variable erfc : real_t -> real_t.

Variable ksize : Z.
Variable alpha : real_t.
Variable sigma : real_t.
Variable cutoff : real_t.
Variable cycle : vec3.

(** [for (int d=0; d<3; d++) scale[d] = 2 * M_PI / cycle[d];] *)
Definition scale : vec3 :=
  mkvec3 (2 * M_PI / v0 cycle) (2 * M_PI / v1 cycle) (2 * M_PI / v2 cycle).

(** [real_t th = 0; for (d...) th += K[d] * Jbodies[b][d] * scale[d];] *)
Definition phase (K : vec3) (J : vec4) : real_t :=
  0 + v0 K * w0 J * v0 scale + v1 K * w1 J * v1 scale
    + v2 K * w2 J * v2 scale.

(** *** initWaves

    The three loops push the waves in the order of the list.  The sum
    [l * l + m * m + n * n] is computed in [int] and then converted to
    [real_t]; the comparison [ksq <= kmaxsq] is made in [real_t].  (For
    [ksize = INT_MAX] the loops of the code do not end; the ranges below
    are those of every smaller [ksize].) *)
Definition initWaves : Waves :=
  let kmaxsq := int_mul ksize ksize in
  let kmax := ksize in
  flat_map (fun l =>
    let mmin := if (l =? 0)%Z then 0%Z else int_neg kmax in
    flat_map (fun m =>
      let nmin := if (l =? 0)%Z && (m =? 0)%Z then 1%Z else int_neg kmax in
      flat_map (fun n =>
        let ksq : real_t :=
          IZR (int_add (int_add (int_mul l l) (int_mul m m)) (int_mul n n)) in
        if Rleb ksq (IZR kmaxsq)
        then [Wave.mk (mkvec3 (IZR l) (IZR m) (IZR n)) 0 0]
        else [])
      (int_range nmin kmax))
    (int_range mmin kmax))
  (int_range 0 kmax).

(** *** dft: forward transform *)

(** One pass of the loop over bodies, for the wave [W] and the body [J]. *)
Definition dft_body (W : Wave.t) (J : vec4) : Wave.t :=
  let th := phase (Wave.K W) J in
  Wave.mk (Wave.K W)
          (Wave.REAL W + w3 J * cos th)
          (Wave.IMAG W + w3 J * sin th).

(** One pass of the loop over waves: the amplitudes of [W] are cleared,
    then the bodies are accumulated.  [Jbodies] is a [vec4 *]: components
    0..2 hold the position, component 3 the source strength.
    [for (int b=0; b<numBodies; b++)] runs through
    [seq 0 (Z.to_nat numBodies)]. *)
Definition dft_wave (Jbodies : Vec4Mem) (numBodies : Z) (W : Wave.t) : Wave.t :=
  fold_left (fun W' b => dft_body W' (Jbodies b))
            (seq 0 (Z.to_nat numBodies))
            (Wave.mk (Wave.K W) 0 0).

(** [for (int w=0; w<int(waves.size()); w++)]: the size of the vector is
    converted to [int]; the loop visits the waves whose index is below the
    converted size (none when it is negative) and leaves the others as they
    are. *)
Definition dft (waves : Waves) (Jbodies : Vec4Mem) (numBodies : Z) : Waves :=
  let bound := Z.to_nat (int_wrap (Z.of_nat (length waves))) in
  map (dft_wave Jbodies numBodies) (firstn bound waves) ++ skipn bound waves.

(** *** idft: inverse transform *)

(** One pass of the loop over waves, for the body [J] and the local [TRG]. *)
Definition idft_wave (J : vec4) (TRG : vec4) (W : Wave.t) : vec4 :=
  let th := phase (Wave.K W) J in
  let dtmp := Wave.REAL W * sin th - Wave.IMAG W * cos th in
  mkvec4 (w0 TRG + (Wave.REAL W * cos th + Wave.IMAG W * sin th))
         (w1 TRG - dtmp * v0 (Wave.K W))
         (w2 TRG - dtmp * v1 (Wave.K W))
         (w3 TRG - dtmp * v2 (Wave.K W)).

(** The local [TRG] of one body after the wave loop and the scaling
    [for (d...) TRG[d+1] *= scale[d]]. *)
Definition idft_body (waves : Waves) (J : vec4) : vec4 :=
  let TRG := fold_left (idft_wave J) waves vec4_zero in
  mkvec4 (w0 TRG) (w1 TRG * v0 scale) (w2 TRG * v1 scale) (w3 TRG * v2 scale).

(** [Ibodies] and [Jbodies] are distinct arrays (targets and sources). *)
Definition idft (waves : Waves) (Ibodies Jbodies : Vec4Mem) (numBodies : Z)
  : Vec4Mem :=
  fold_left (fun I b => upd I b (vec4_add (I b) (idft_body waves (Jbodies b))))
            (seq 0 (Z.to_nat numBodies))
            Ibodies.

(** *** P2P: real-space kernel *)

(** The body of the two loops of [P2P]: the target [Bi] after the pass for
    the source [Bj]. *)
Definition P2P_pair (Bi Bj : Body.t) (Xperiodic : vec3) : Body.t :=
  let dX := vec3_sub (vec3_sub (Body.X Bi) (Body.X Bj)) Xperiodic in
  let R2 := norm dX in
  if Rltb 0 R2 && Rltb R2 (cutoff * cutoff) then
    let R2s := R2 * alpha * alpha in
    let Rs := sqrt R2s in
    let invRs := 1 / Rs in
    let invR2s := invRs * invRs in
    let invR3s := invR2s * invRs in
    let dtmp :=
      Body.SRC Bj * (M_2_SQRTPI * exp (- R2s) * invR2s + erfc Rs * invR3s) in
    let dtmp := dtmp * (alpha * alpha * alpha) in
    let T := Body.TRG Bi in
    Body.set_TRG Bi
      (mkvec4 (w0 T + Body.SRC Bj * erfc Rs * invRs * alpha)
              (w1 T - v0 dX * dtmp)
              (w2 T - v1 dX * dtmp)
              (w3 T - v2 dX * dtmp))
  else Bi.

(** Targets [Ci->BODY .. Ci->BODY+Ci->NBODY), sources likewise; both ranges
    live in the same storage and may overlap. *)
Definition P2P (Ci Cj : Cell.t) (Xperiodic : vec3) (mem : BodyMem) : BodyMem :=
  fold_left
    (fun m Bi =>
       fold_left (fun m' Bj => upd m' Bi (P2P_pair (m' Bi) (m' Bj) Xperiodic))
                 (seq (Cell.BODY Cj) (Cell.NBODY Cj)) m)
    (seq (Cell.BODY Ci) (Cell.NBODY Ci))
    mem.

(** *** Neighbor: recursive traversal of the source tree *)

(** Modelled from the spec: [wrap] (types.h) replaces the separation of two
    cell centres by its minimum image under the periodic box; it is a
    parameter here. *)
Variable wrap : vec3 -> vec3 -> vec3.

(** The state of the traversal: the body storage, and the list of the
    [P2P] calls made so far (a ghost field, the code has no such list). *)
Record State : Type := mkState {
  mem : BodyMem;
  calls : list (Cell.t * Cell.t * vec3)
}.

Definition P2P_call (Ci Cj : Cell.t) (Xperiodic : vec3) (st : State) : State :=
  mkState (P2P Ci Cj Xperiodic (mem st)) (calls st ++ [(Ci, Cj, Xperiodic)]).

(** The test of the functor: [R - Ci->R - Cj->R < sqrtf(3) * cutoff], with
    [R] the wrapped centre distance. *)
Definition close (Ci Cj : Cell.t) : bool :=
  let dX := wrap (vec3_sub (Cell.X Ci) (Cell.X Cj)) cycle in
  let R := sqrt (norm dX) in
  Rltb (R - Cell.R Ci - Cell.R Cj) (sqrt 3 * cutoff).

(** [Xperiodic = Ci->X - Cj->X - dX] with the wrapped [dX]. *)
Definition periodic_offset (Ci Cj : Cell.t) : vec3 :=
  let dX := wrap (vec3_sub (Cell.X Ci) (Cell.X Cj)) cycle in
  vec3_sub (vec3_sub (Cell.X Ci) (Cell.X Cj)) dX.

(** [Neighbor::operator()], with [C0 = jcells.begin()] and [Cj] an index
    into [jcells].  The recursion of the code is bounded by the depth of the
    tree; [fuel] bounds it here. *)
Fixpoint Neighbor (fuel : nat) (jcells : Cells) (Ci : Cell.t) (Cj : C_iter)
  (st : State) : result State :=
  match fuel with
  | O => Stuck OutOfFuel
  | S fuel' =>
      match nth_error jcells Cj with
      | None => Stuck OutOfRange
      | Some cj =>
          if close Ci cj then
            let st1 :=
              if Nat.eqb (Cell.NCHILD cj) 0
              then P2P_call Ci cj (periodic_offset Ci cj) st
              else st in
            for_each (seq (Cell.ICHILD cj) (Cell.NCHILD cj))
                     (fun CC => Neighbor fuel' jcells Ci CC) st1
          else Ok st
      end
  end.

(** *** realPart *)

Definition realPart (fuel : nat) (cells jcells : Cells) (st : State)
  : result State :=
  for_each cells
    (fun Ci st' =>
       if Nat.eqb (Cell.NCHILD Ci) 0
       then Neighbor fuel jcells Ci 0%nat st'
       else Ok st')
    st.

(** *** selfTerm *)

Definition selfTerm (bodies : Bodies) : Bodies :=
  map (fun B =>
         let T := Body.TRG B in
         Body.set_TRG B
           (mkvec4 (w0 T - M_2_SQRTPI * Body.SRC B * alpha)
                   (w1 T) (w2 T) (w3 T)))
      bodies.

(** *** wavePart

    The calls to the timer ([start], [stop] of timer.h) have no effect on
    the data and are left out, here and in [realPart]. *)

(** The loop over waves between the two transforms. *)
Definition wavePart_filter (waves : Waves) : Waves :=
  let coef := 2 / sigma / v0 cycle / v1 cycle / v2 cycle in
  let coef2 := 1 / (4 * alpha * alpha) in
  map (fun W =>
         let K := vec3_mul (Wave.K W) scale in
         let K2 := norm K in
         let factor := coef * exp (- K2 * coef2) / K2 in
         Wave.mk (Wave.K W) (Wave.REAL W * factor) (Wave.IMAG W * factor))
      waves.

Definition wavePart (Ibodies Jbodies : Vec4Mem) (numBodies : Z) : Vec4Mem :=
  let waves := initWaves in
  let waves := dft waves Jbodies numBodies in
  let waves := wavePart_filter waves in
  idft waves Ibodies Jbodies numBodies.

End Ewald2.

(** ** Corrections (no use of the configuration) *)

Definition complex_t : Type := (real_t * real_t)%type.
Definition complex_of_real (x : real_t) : complex_t := (x, 0).
Definition std_real (z : complex_t) : real_t := fst z.

(** [getDipole] takes [Bodies &]: the storage is returned next to the
    dipole, as the loop leaves it. *)
Definition getDipole (bodies : Bodies) (X0 : vec3) : vec3 * Bodies :=
  (fold_left
     (fun dipole B =>
        vec3_add dipole
          (vec3_scale (vec3_sub (Body.X B) X0)
                      (std_real (complex_of_real (Body.SRC B)))))
     bodies vec3_zero,
   bodies).

Definition dipoleCorrection (bodies : Bodies) (dipole : vec3) (numBodies : Z)
  (cycle : vec3) : Bodies :=
  let coef := 4 * M_PI / (3 * v0 cycle * v1 cycle * v2 cycle) in
  map (fun B =>
         let T := Body.TRG B in
         Body.set_TRG B
           (mkvec4 (w0 T - coef * norm dipole / IZR numBodies / Body.SRC B)
                   (w1 T - coef * v0 dipole)
                   (w2 T - coef * v1 dipole)
                   (w3 T - coef * v2 dipole)))
      bodies.

(** [initTarget]: [B - bodies.begin()] is the position in the vector. *)
Fixpoint initTarget_from (i : Z) (bodies : Bodies) : Bodies :=
  match bodies with
  | [] => []
  | B :: rest =>
      Body.mk (Body.X B) (Body.SRC B) vec4_zero i 0%Z 1
        :: initTarget_from (i + 1) rest
  end.
Definition initTarget (bodies : Bodies) : Bodies := initTarget_from 0 bodies.

(** [for (x : xs) ...] over a pass that may stop. *)
Fixpoint mapM {A B : Type} (f : A -> option B) (l : list A) : option (list B) :=
  match l with
  | [] => Some []
  | a :: l' =>
      match f a with
      | None => None
      | Some b =>
          match mapM f l' with
          | None => None
          | Some bs => Some (b :: bs)
          end
      end
  end.

(** *** dipoleCorrection in binary64, with its divisions observed

    Modelled from the spec: [real_t] (types.h) is an IEEE floating-point
    type; binary64 is taken here, with the arithmetic of the kernel's
    primitive floats.  [dipoleCorrection] is the function of the code;
    [dipoleCorrection_chk] has the same statements, every division replaced
    by [div_chk], which stops with [None] on a divisor that is zero. *)
Module F64.
Import PrimFloat.
Local Open Scope float_scope.

Record vec3 : Type := mkvec3 { v0 : float; v1 : float; v2 : float }.
Record vec4 : Type :=
  mkvec4 { w0 : float; w1 : float; w2 : float; w3 : float }.

Record Body : Type := mkBody {
  X : vec3;
  SRC : float;
  TRG : vec4;
  IBODY : Z;
  ICELL : Z;
  WEIGHT : float
}.

Definition set_TRG (B : Body) (T : vec4) : Body :=
  mkBody (X B) (SRC B) T (IBODY B) (ICELL B) (WEIGHT B).

(** [M_PI] of <cmath>, the binary64 value next to pi. *)
Definition M_PI : float := 0x1.921fb54442d18p+1.

Definition norm (a : vec3) : float :=
  0 + v0 a * v0 a + v1 a * v1 a + v2 a * v2 a.

(** The conversion of an [int] to [real_t]. *)
Definition real_of_int (z : Z) : float :=
  if (z <? 0)%Z then - of_uint63 (Uint63.of_Z (- z))
  else of_uint63 (Uint63.of_Z z).

(** The divisor of [coef]: [3 * cycle[0] * cycle[1] * cycle[2]]. *)
Definition coef_divisor (cycle : vec3) : float :=
  3 * v0 cycle * v1 cycle * v2 cycle.

Definition dipoleCorrection (bodies : list Body) (dipole : vec3)
  (numBodies : Z) (cycle : vec3) : list Body :=
  let coef := 4 * M_PI / (3 * v0 cycle * v1 cycle * v2 cycle) in
  map (fun B =>
         let T := TRG B in
         set_TRG B
           (mkvec4 (w0 T - coef * norm dipole / real_of_int numBodies / SRC B)
                   (w1 T - coef * v0 dipole)
                   (w2 T - coef * v1 dipole)
                   (w3 T - coef * v2 dipole)))
      bodies.

Definition div_chk (x y : float) : option float :=
  if is_zero y then None else Some (x / y).

Definition dipoleCorrection_chk (bodies : list Body) (dipole : vec3)
  (numBodies : Z) (cycle : vec3) : option (list Body) :=
  match div_chk (4 * M_PI) (3 * v0 cycle * v1 cycle * v2 cycle) with
  | None => None
  | Some coef =>
      mapM (fun B =>
              let T := TRG B in
              match div_chk (coef * norm dipole) (real_of_int numBodies) with
              | None => None
              | Some t =>
                  match div_chk t (SRC B) with
                  | None => None
                  | Some u =>
                      Some (set_TRG B
                              (mkvec4 (w0 T - u)
                                      (w1 T - coef * v0 dipole)
                                      (w2 T - coef * v1 dipole)
                                      (w3 T - coef * v2 dipole)))
                  end
              end)
           bodies
  end.

(** Instances: a box of side 2^-366 (about 1.3e-110), the unit box, a body
    of source strength 1 and one of source strength 0, at the origin. *)
Definition tiny : float := 0x1p-366.
Definition tiny_box : vec3 := mkvec3 tiny tiny tiny.
Definition unit_box : vec3 := mkvec3 1 1 1.
Definition unit_dipole : vec3 := mkvec3 1 0 0.
Definition unit_body : Body :=
  mkBody (mkvec3 0 0 0) 1 (mkvec4 0 0 0 0) 0%Z 0%Z 1.
Definition null_body : Body :=
  mkBody (mkvec3 0 0 0) 0 (mkvec4 0 0 0 0) 0%Z 0%Z 1.

End F64.

(** ** Specification-side definitions *)

(** *** Waves *)

(** The condition the specification puts on a wave vector [(l, m, n)] of
    the half lattice of radius [k]. *)
Definition half_lattice (k l m n : Z) : Prop :=
  (l * l + m * m + n * n <= k * k
   /\ (l, m, n) <> (0, 0, 0)
   /\ 0 <= l <= k
   /\ (l = 0 -> 0 <= m <= k)
   /\ (l = 0 -> m = 0 -> 0 < n))%Z.

(** The full symmetric shell: every nonzero integer vector of the cube
    [-k..k]^3 within the radius [k]. *)
Definition full_shell (k : Z) : list (Z * Z * Z) :=
  flat_map (fun l =>
    flat_map (fun m =>
      flat_map (fun n =>
        if ((0 <? l * l + m * m + n * n) && (l * l + m * m + n * n <=? k * k))%Z
        then [(l, m, n)] else [])
      (int_range (- k) k))
    (int_range (- k) k))
  (int_range (- k) k).

Definition wave_of (l m n : Z) : Wave.t :=
  Wave.mk (mkvec3 (IZR l) (IZR m) (IZR n)) 0 0.

(** *** Transforms and filter *)

(** A finite sum of reals. *)
Definition Rsum (l : list R) : R := fold_right Rplus 0 l.

(** The phase of the specification: the sum over the axes [d] of
    [K[d] * x[d] * (2 pi / cycle[d])]. *)
Definition theta (cycle K : vec3) (J : vec4) : R :=
  v0 K * w0 J * (2 * PI / v0 cycle)
  + v1 K * w1 J * (2 * PI / v1 cycle)
  + v2 K * w2 J * (2 * PI / v2 cycle).

(** The squared length of the wave vector [K] scaled by [2 pi / cycle[d]]
    on each axis. *)
Definition K2_spec (cycle K : vec3) : R :=
  (v0 K * (2 * PI / v0 cycle)) ^ 2
  + (v1 K * (2 * PI / v1 cycle)) ^ 2
  + (v2 K * (2 * PI / v2 cycle)) ^ 2.

(** The increments of the inverse transform for one body [J], as the
    specification writes them. *)
Definition idft_dtmp (cycle : vec3) (J : vec4) (W : Wave.t) : R :=
  Wave.REAL W * sin (theta cycle (Wave.K W) J)
  - Wave.IMAG W * cos (theta cycle (Wave.K W) J).

Definition idft_potential (cycle : vec3) (waves : Waves) (J : vec4) : R :=
  Rsum (map (fun W => Wave.REAL W * cos (theta cycle (Wave.K W) J)
                      + Wave.IMAG W * sin (theta cycle (Wave.K W) J))
            waves).

Definition idft_force (cycle : vec3) (waves : Waves) (J : vec4)
  (Kd : vec3 -> R) (cycle_d : R) : R :=
  - Rsum (map (fun W => idft_dtmp cycle J W * Kd (Wave.K W)) waves)
  * (2 * PI / cycle_d).

(** The factor of the reciprocal filter, as the specification writes it. *)
Definition filter_factor (alpha sigma : R) (cycle K : vec3) : R :=
  2 / (sigma * v0 cycle * v1 cycle * v2 cycle)
  * exp (- K2_spec cycle K / (4 * alpha ^ 2))
  / K2_spec cycle K.

(** The sources [Jbodies] with every source strength multiplied by [c],
    the positions kept. *)
Definition scale_sources (c : R) (Jbodies : Vec4Mem) : Vec4Mem :=
  fun b => mkvec4 (w0 (Jbodies b)) (w1 (Jbodies b)) (w2 (Jbodies b))
                  (c * w3 (Jbodies b)).

Definition vec4_scale (c : R) (a : vec4) : vec4 :=
  mkvec4 (c * w0 a) (c * w1 a) (c * w2 a) (c * w3 a).

(** The wave [W] with both amplitudes multiplied by [c]. *)
Definition amplitude_scale (c : R) (W : Wave.t) : Wave.t :=
  Wave.mk (Wave.K W) (c * Wave.REAL W) (c * Wave.IMAG W).

(** *** Real-space kernel *)

(** The real-space kernel of the specification: for a source of strength
    [q] at the distance [r], the potential [q erfc(r alpha)/(r alpha) alpha]
    and the scalar
    [dtmp = q (2/sqrt(pi) exp(-(r alpha)^2)/(r alpha)^2
              + erfc(r alpha)/(r alpha)^3) alpha^3]. *)
Definition p2p_potential (erfc : R -> R) (alpha q r : R) : R :=
  q * erfc (r * alpha) / (r * alpha) * alpha.

Definition p2p_dtmp (erfc : R -> R) (alpha q r : R) : R :=
  q * (2 / sqrt PI * exp (- (r * alpha) ^ 2) / (r * alpha) ^ 2
       + erfc (r * alpha) / (r * alpha) ^ 3)
  * alpha ^ 3.

(** The separation [x_i - x_j - X_p] and its squared length. *)
Definition separation (Bi Bj : Body.t) (Xperiodic : vec3) : vec3 :=
  vec3_sub (vec3_sub (Body.X Bi) (Body.X Bj)) Xperiodic.

Definition length2 (a : vec3) : R := v0 a ^ 2 + v1 a ^ 2 + v2 a ^ 2.

Definition vec4_sub (a b : vec4) : vec4 :=
  mkvec4 (w0 a - w0 b) (w1 a - w1 b) (w2 a - w2 b) (w3 a - w3 b).

(** What one pass of the kernel adds to the accumulator of the target. *)
Definition P2P_increment (erfc : R -> R) (alpha cutoff : R)
  (Bi Bj : Body.t) (Xperiodic : vec3) : vec4 :=
  vec4_sub (Body.TRG (P2P_pair erfc alpha cutoff Bi Bj Xperiodic))
           (Body.TRG Bi).

(** Two storages hold the same positions and source strengths. *)
Definition agree_src (m m' : BodyMem) : Prop :=
  forall j : B_iter,
    Body.X (m j) = Body.X (m' j) /\ Body.SRC (m j) = Body.SRC (m' j).

(** The target [B] after the passes for the sources [js] of the storage
    [mem], in order. *)
Definition P2P_target (erfc : R -> R) (alpha cutoff : R) (Xperiodic : vec3)
  (mem : BodyMem) (js : list B_iter) (B : Body.t) : Body.t :=
  fold_left (fun B' j => P2P_pair erfc alpha cutoff B' (mem j) Xperiodic) js B.

(** The targets of a cell: the indices [BODY .. BODY + NBODY). *)
Definition in_cell (C : Cell.t) (k : B_iter) : bool :=
  (Cell.BODY C <=? k)%nat && (k <? Cell.BODY C + Cell.NBODY C)%nat.

(** The body [B] displaced by [t], every other field kept. *)
Definition displace (B : Body.t) (t : vec3) : Body.t :=
  Body.mk (vec3_add (Body.X B) t) (Body.SRC B) (Body.TRG B)
          (Body.IBODY B) (Body.ICELL B) (Body.WEIGHT B).

(** Two bodies differ in their accumulator at most. *)
Definition same_but_TRG (B B' : Body.t) : Prop :=
  Body.X B' = Body.X B
  /\ Body.SRC B' = Body.SRC B
  /\ Body.IBODY B' = Body.IBODY B
  /\ Body.ICELL B' = Body.ICELL B
  /\ Body.WEIGHT B' = Body.WEIGHT B.

(** The body of index [k] is a target of no leaf of [cells]. *)
Definition no_leaf_target (cells : Cells) (k : B_iter) : Prop :=
  forall Ci : Cell.t,
    In Ci cells -> Cell.NCHILD Ci = 0%nat -> in_cell Ci k = false.

(** A body at the position [(x, y, z)] with the source strength [q] and a
    cleared accumulator. *)
Definition body_at (x y z q : R) : Body.t :=
  Body.mk (mkvec3 x y z) q vec4_zero 0%Z 0%Z 1.

(** A stand-in for [erfc] in the instances, positive and decreasing. *)
Definition erfc_example (x : R) : R := exp (- x).

(** A leaf cell of radius 1 at the origin that owns the body of index 0,
    and a state whose storage holds a unit source at the origin at every
    index. *)
Definition leaf_example : Cell.t := Cell.mk vec3_zero 1 0%nat 1%nat 0%nat 0%nat.

Definition state_example : State :=
  mkState (fun _ => body_at 0 0 0 1) [].

(** A source tree of three cells: a root whose two children are leaves. *)
Definition root_example : Cell.t := Cell.mk vec3_zero 2 0%nat 0%nat 1%nat 2%nat.

Definition tree_example : Cells := [root_example; leaf_example; leaf_example].

(** A cell that names itself as its only child. *)
Definition loop_example : Cell.t := Cell.mk vec3_zero 1 0%nat 0%nat 0%nat 1%nat.

(** The body [B] with its source strength multiplied by [c]. *)
Definition scale_source (c : R) (B : Body.t) : Body.t :=
  Body.mk (Body.X B) (c * Body.SRC B) (Body.TRG B)
          (Body.IBODY B) (Body.ICELL B) (Body.WEIGHT B).

(** A vector of [INT_MAX + 1] waves with cleared amplitudes, and one unit
    source at the origin. *)
Definition many_waves : Waves :=
  repeat (wave_of 0 0 1) (Z.to_nat 2147483648).

Definition unit_source : Vec4Mem := fun _ => mkvec4 0 0 0 1.

(** *** The traversal, as the specification describes it *)

Section TraversalSpec.

Variable erfc : R -> R.
Variable alpha cutoff : R.
Variable cycle : vec3.
Variable wrap : vec3 -> vec3 -> vec3.

(** The gap between the surfaces of two cells: the wrapped distance of the
    centres minus the two radii. *)
Definition gap (Ci Cj : Cell.t) : R :=
  sqrt (length2 (wrap (vec3_sub (Cell.X Ci) (Cell.X Cj)) cycle))
  - Cell.R Ci - Cell.R Cj.

(** The state after a list of kernel calls, made in order. *)
Definition run_calls (cs : list (Cell.t * Cell.t * vec3)) (st : State)
  : State :=
  fold_left
    (fun s c => P2P_call erfc alpha cutoff (fst (fst c)) (snd (fst c)) (snd c) s)
    cs st.

(** [walk Ci j cs]: the traversal of the source cell of index [j] for the
    target [Ci] makes the kernel calls [cs].  A cell that is not close
    makes none, nor does its subtree; a close leaf makes one, with the
    offset of the wrap; a close internal cell makes those of its children,
    in order. *)
Inductive walk (jcells : Cells) (Ci : Cell.t)
  : C_iter -> list (Cell.t * Cell.t * vec3) -> Prop :=
| walk_pruned (j : C_iter) (Cj : Cell.t) :
    nth_error jcells j = Some Cj ->
    ~ gap Ci Cj < sqrt 3 * cutoff ->
    walk jcells Ci j []
| walk_leaf (j : C_iter) (Cj : Cell.t) :
    nth_error jcells j = Some Cj ->
    gap Ci Cj < sqrt 3 * cutoff ->
    Cell.NCHILD Cj = 0%nat ->
    walk jcells Ci j [(Ci, Cj, periodic_offset cycle wrap Ci Cj)]
| walk_node (j : C_iter) (Cj : Cell.t) (cs : list (Cell.t * Cell.t * vec3)) :
    nth_error jcells j = Some Cj ->
    gap Ci Cj < sqrt 3 * cutoff ->
    Cell.NCHILD Cj <> 0%nat ->
    walk_children jcells Ci (seq (Cell.ICHILD Cj) (Cell.NCHILD Cj)) cs ->
    walk jcells Ci j cs
with walk_children (jcells : Cells) (Ci : Cell.t)
  : list C_iter -> list (Cell.t * Cell.t * vec3) -> Prop :=
| walk_children_nil : walk_children jcells Ci [] []
| walk_children_cons (c : C_iter) (rest : list C_iter)
    (cs1 cs2 : list (Cell.t * Cell.t * vec3)) :
    walk jcells Ci c cs1 ->
    walk_children jcells Ci rest cs2 ->
    walk_children jcells Ci (c :: rest) (cs1 ++ cs2).

(** The calls of [realPart]: one traversal from the root of the source
    tree for every leaf of the target cells, none for an internal cell. *)
Inductive real_walk (jcells : Cells)
  : Cells -> list (Cell.t * Cell.t * vec3) -> Prop :=
| real_walk_nil : real_walk jcells [] []
| real_walk_leaf (Ci : Cell.t) (cells : Cells)
    (cs1 cs2 : list (Cell.t * Cell.t * vec3)) :
    Cell.NCHILD Ci = 0%nat ->
    walk jcells Ci 0%nat cs1 ->
    real_walk jcells cells cs2 ->
    real_walk jcells (Ci :: cells) (cs1 ++ cs2)
| real_walk_internal (Ci : Cell.t) (cells : Cells)
    (cs : list (Cell.t * Cell.t * vec3)) :
    Cell.NCHILD Ci <> 0%nat ->
    real_walk jcells cells cs ->
    real_walk jcells (Ci :: cells) cs.

(** A well-formed source tree: the children of a cell lie in the vector,
    after the cell itself. *)
Definition wf_tree (jcells : Cells) : Prop :=
  forall (j : C_iter) (Cj : Cell.t),
    nth_error jcells j = Some Cj ->
    Cell.NCHILD Cj <> 0%nat ->
    (j < Cell.ICHILD Cj)%nat
    /\ (Cell.ICHILD Cj + Cell.NCHILD Cj <= length jcells)%nat.

End TraversalSpec.

Scheme walk_min := Minimality for walk Sort Prop
  with walk_children_min := Minimality for walk_children Sort Prop.

(** ** Properties of initWaves *)

Section InitWaves.

Lemma in_int_range (lo hi v : Z) :
  In v (int_range lo hi) <-> (lo <= v <= hi)%Z.
Proof.
  unfold int_range. rewrite in_map_iff. split.
  - intros [i [Hv Hi]]. apply in_seq in Hi. lia.
  - intros Hv. exists (Z.to_nat (v - lo)). split; [lia|].
    apply in_seq. lia.
Qed.

Lemma Rleb_IZR (a b : Z) : Rleb (IZR a) (IZR b) = (a <=? b)%Z.
Proof.
  unfold Rleb. destruct (Rle_dec (IZR a) (IZR b)) as [H|H].
  - symmetry. apply Z.leb_le. now apply le_IZR.
  - symmetry. apply Z.leb_gt. apply Z.nle_gt. intro Hle. apply H.
    now apply IZR_le.
Qed.

Lemma int_wrap_small (z : Z) :
  (- 2 ^ 31 <= z < 2 ^ 31)%Z -> int_wrap z = z.
Proof.
  intros Hz. unfold int_wrap.
  rewrite Z.mod_small; lia.
Qed.

(** Membership in the result of [initWaves], for every [ksize], with the
    32-bit arithmetic of the code. *)
Lemma initWaves_In (ksize : Z) (w : Wave.t) :
  In w (initWaves ksize) <->
  exists l m n : Z,
    w = wave_of l m n
    /\ (0 <= l <= ksize)%Z
    /\ ((if (l =? 0)%Z then 0 else int_neg ksize) <= m <= ksize)%Z
    /\ ((if (l =? 0)%Z && (m =? 0)%Z then 1 else int_neg ksize) <= n <= ksize)%Z
    /\ (int_add (int_add (int_mul l l) (int_mul m m)) (int_mul n n)
        <= int_mul ksize ksize)%Z.
Proof.
  unfold initWaves. rewrite in_flat_map. split.
  - intros [l [Hl Hw]]. apply in_int_range in Hl.
    apply in_flat_map in Hw. destruct Hw as [m [Hm Hw]].
    apply in_int_range in Hm.
    apply in_flat_map in Hw. destruct Hw as [n [Hn Hw]].
    apply in_int_range in Hn.
    rewrite Rleb_IZR in Hw.
    destruct (Z.leb_spec
                (int_add (int_add (int_mul l l) (int_mul m m)) (int_mul n n))
                (int_mul ksize ksize)) as [Hle|Hgt].
    + destruct Hw as [Hw|[]]. exists l, m, n. now subst w.
    + destruct Hw.
  - intros [l [m [n [-> [Hl [Hm [Hn Hle]]]]]]].
    exists l. split; [now apply in_int_range|].
    apply in_flat_map. exists m. split; [now apply in_int_range|].
    apply in_flat_map. exists n. split; [now apply in_int_range|].
    rewrite Rleb_IZR.
    apply Z.leb_le in Hle. rewrite Hle. now left.
Qed.

Lemma wave_of_inj (l m n l' m' n' : Z) :
  wave_of l m n = wave_of l' m' n' -> l = l' /\ m = m' /\ n = n'.
Proof.
  unfold wave_of. intros H. injection H as H0 H1 H2.
  repeat split; now apply eq_IZR.
Qed.

Lemma initWaves_1 :
  initWaves 1 = [wave_of 0 0 1; wave_of 0 1 0; wave_of 1 0 0].
Proof.
  cbv -[Rleb IZR wave_of].
  rewrite !Rleb_IZR. cbv -[IZR]. reflexivity.
Qed.

(** C2 (as amended): for every [ksize >= 0] whose squares the 32-bit
    arithmetic of the code can add without overflow
    ([3 * ksize^2 <= INT_MAX]), [initWaves] returns exactly the waves of the
    integer vectors [(l, m, n)] with [l^2 + m^2 + n^2 <= ksize^2], the zero
    vector excluded, on the half lattice [0 <= l <= ksize], [0 <= m <= ksize]
    when [l = 0], [0 < n] when [l = m = 0]; both amplitudes of every wave
    are zero; [ksize = 0] gives the empty set; for [ksize = 1] no vector is
    repeated, the zero vector is absent and the set has half the size of
    the full symmetric shell (3 of 6). *)
Theorem initWaves_half_lattice (ksize : Z) :
  (0 <= ksize)%Z ->
  (3 * (ksize * ksize) <= INT_MAX)%Z ->
  (forall w : Wave.t,
      In w (initWaves ksize) <->
      exists l m n : Z, w = wave_of l m n /\ half_lattice ksize l m n)
  /\ (forall w : Wave.t,
         In w (initWaves ksize) -> Wave.REAL w = 0 /\ Wave.IMAG w = 0)
  /\ initWaves 0 = []
  /\ NoDup (map Wave.K (initWaves 1))
  /\ (forall w : Wave.t, In w (initWaves 1) -> Wave.K w <> vec3_zero)
  /\ length (initWaves 1) = 3%nat
  /\ length (full_shell 1) = 6%nat
  /\ (2 * length (initWaves 1) = length (full_shell 1))%nat.
Proof.
  intros Hk Hmax. unfold INT_MAX in Hmax.
  assert (Hneg : int_neg ksize = (- ksize)%Z).
  { unfold int_neg. apply int_wrap_small. nia. }
  assert (Hsq : forall a : Z,
             (- ksize <= a <= ksize)%Z ->
             int_mul a a = (a * a)%Z /\ (0 <= a * a <= ksize * ksize)%Z).
  { intros a Ha. assert (0 <= a * a <= ksize * ksize)%Z by nia.
    split; [|assumption]. unfold int_mul. apply int_wrap_small. lia. }
  assert (Hmem : forall w : Wave.t,
             In w (initWaves ksize) <->
             exists l m n : Z, w = wave_of l m n /\ half_lattice ksize l m n).
  { intros w. rewrite initWaves_In. rewrite Hneg. unfold half_lattice.
    split.
    - intros [l [m [n [-> [Hl [Hm [Hn Hle]]]]]]].
      exists l, m, n. split; [reflexivity|].
      assert (Hm' : (- ksize <= m <= ksize)%Z)
        by (destruct (l =? 0)%Z; lia).
      assert (Hn' : (- ksize <= n <= ksize)%Z)
        by (destruct ((l =? 0)%Z && (m =? 0)%Z); lia).
      destruct (Hsq l) as [El Bl]; [lia|].
      destruct (Hsq m) as [Em Bm]; [lia|].
      destruct (Hsq n) as [En Bn]; [lia|].
      destruct (Hsq ksize) as [Ek Bk]; [lia|].
      rewrite El, Em, En, Ek in Hle.
      unfold int_add in Hle.
      rewrite (int_wrap_small (l * l + m * m)) in Hle by lia.
      rewrite int_wrap_small in Hle by lia.
      split; [exact Hle|].
      split.
      { intros Heq. injection Heq as -> -> ->. simpl in Hn. lia. }
      split; [exact Hl|].
      split.
      { intros ->. simpl in Hm. lia. }
      { intros -> ->. simpl in Hn. lia. }
    - intros [l [m [n [-> [Hle [Hnz [Hl [Hm Hn]]]]]]]].
      exists l, m, n. split; [reflexivity|].
      assert (Hm' : (- ksize <= m <= ksize)%Z) by nia.
      assert (Hn' : (- ksize <= n <= ksize)%Z) by nia.
      destruct (Hsq l) as [El Bl]; [lia|].
      destruct (Hsq m) as [Em Bm]; [lia|].
      destruct (Hsq n) as [En Bn]; [lia|].
      destruct (Hsq ksize) as [Ek Bk]; [lia|].
      rewrite El, Em, En, Ek. unfold int_add.
      rewrite (int_wrap_small (l * l + m * m)) by lia.
      rewrite int_wrap_small by lia.
      split; [exact Hl|].
      split.
      { destruct (Z.eqb_spec l 0) as [E|E]; [specialize (Hm E)|]; lia. }
      split; [|exact Hle].
      destruct (Z.eqb_spec l 0) as [E|E]; simpl; [|lia].
      destruct (Z.eqb_spec m 0) as [E'|E']; simpl; [|lia].
      specialize (Hn E E'). lia. }
  split; [exact Hmem|].
  split.
  { intros w Hw. apply Hmem in Hw. destruct Hw as [l [m [n [-> _]]]].
    split; reflexivity. }
  split.
  { cbv -[Rleb IZR wave_of]. reflexivity. }
  rewrite initWaves_1.
  split.
  { simpl. repeat constructor; simpl; intros H;
      repeat (destruct H as [H|H]; [injection H; intros; lra|]); exact H. }
  split.
  { intros w [<-|[<-|[<-|[]]]]; simpl; unfold vec3_zero; intros H;
      injection H; intros; lra. }
  repeat split.
Qed.

(** For [ksize = 26755] the sum [l*l + m*m + n*n] of the code overflows at
    [l = m = n = 26755]: the wave is generated although its vector lies
    outside the ball of radius [ksize]. *)
Lemma initWaves_overflow_26755 :
  In (wave_of 26755 26755 26755) (initWaves 26755)
  /\ (26755 * 26755 + 26755 * 26755 + 26755 * 26755 > 26755 * 26755)%Z
  /\ ((exists l m n : Z,
          wave_of 26755 26755 26755 = wave_of l m n
          /\ half_lattice 26755 l m n) -> False).
Proof.
  split.
  - apply initWaves_In. exists 26755%Z, 26755%Z, 26755%Z.
    split; [reflexivity|]. vm_compute. repeat split; discriminate.
  - split; [reflexivity|].
    intros [l [m [n [Heq Hhl]]]].
    apply wave_of_inj in Heq. destruct Heq as [<- [<- <-]].
    unfold half_lattice in Hhl. lia.
Qed.

End InitWaves.

(** ** Properties of the transforms *)

Section Transforms.

Variable alpha sigma : real_t.
Variable cycle : vec3.

Lemma phase_theta (K : vec3) (J : vec4) : phase cycle K J = theta cycle K J.
Proof. unfold phase, theta, scale, M_PI. simpl. ring. Qed.

Lemma upd_same {A : Type} (m : nat -> A) (i : nat) (a : A) : upd m i a i = a.
Proof. unfold upd. now rewrite Nat.eqb_refl. Qed.

Lemma upd_other {A : Type} (m : nat -> A) (i k : nat) (a : A) :
  k <> i -> upd m i a k = m k.
Proof. unfold upd. intros H. apply Nat.eqb_neq in H. now rewrite H. Qed.

(** A loop that rewrites the cell [b] of a map from its own content, for
    [b] in a range. *)
Lemma fold_upd_seq {A : Type} (g : nat -> A -> A) (len start : nat)
  (m : nat -> A) (k : nat) :
  fold_left (fun I b => upd I b (g b (I b))) (seq start len) m k =
  if (start <=? k)%nat && (k <? start + len)%nat then g k (m k) else m k.
Proof.
  revert start m. induction len as [|len IH]; intros start m; simpl.
  - destruct (Nat.leb_spec start k); destruct (Nat.ltb_spec k (start + 0));
      simpl; try reflexivity; lia.
  - rewrite IH.
    destruct (Nat.eq_dec k start) as [->|Hne].
    + rewrite upd_same.
      destruct (Nat.leb_spec (S start) start); [lia|].
      destruct (Nat.leb_spec start start); [|lia].
      destruct (Nat.ltb_spec start (start + S len)); [|lia].
      reflexivity.
    + rewrite upd_other by exact Hne.
      destruct (Nat.leb_spec (S start) k); destruct (Nat.leb_spec start k);
        destruct (Nat.ltb_spec k (S start + len));
        destruct (Nat.ltb_spec k (start + S len));
        simpl; try reflexivity; lia.
Qed.

(** The accumulation of [dft] over a list of bodies. *)
Lemma dft_body_fold (Jbodies : Vec4Mem) (bs : list nat) (W : Wave.t) :
  fold_left (fun W' b => dft_body cycle W' (Jbodies b)) bs W =
  Wave.mk (Wave.K W)
    (Wave.REAL W
     + Rsum (map (fun b => w3 (Jbodies b)
                           * cos (theta cycle (Wave.K W) (Jbodies b))) bs))
    (Wave.IMAG W
     + Rsum (map (fun b => w3 (Jbodies b)
                           * sin (theta cycle (Wave.K W) (Jbodies b))) bs)).
Proof.
  revert W. induction bs as [|b bs IH]; intros W; simpl.
  - destruct W; simpl. f_equal; ring.
  - rewrite IH. unfold dft_body. simpl. rewrite phase_theta.
    f_equal; ring.
Qed.

(** One pass of the loop over waves, as sums. *)
Lemma dft_wave_sums (Jbodies : Vec4Mem) (numBodies : Z) (W : Wave.t) :
  dft_wave cycle Jbodies numBodies W =
  Wave.mk (Wave.K W)
    (Rsum (map (fun b => w3 (Jbodies b)
                          * cos (theta cycle (Wave.K W) (Jbodies b)))
               (seq 0 (Z.to_nat numBodies))))
    (Rsum (map (fun b => w3 (Jbodies b)
                          * sin (theta cycle (Wave.K W) (Jbodies b)))
               (seq 0 (Z.to_nat numBodies)))).
Proof.
  unfold dft_wave. rewrite dft_body_fold. simpl. f_equal; ring.
Qed.

(** When the number of waves fits in an [int], the loop visits them all. *)
Lemma dft_within_int (waves : Waves) (Jbodies : Vec4Mem) (numBodies : Z) :
  (Z.of_nat (length waves) <= INT_MAX)%Z ->
  dft cycle waves Jbodies numBodies =
  map (dft_wave cycle Jbodies numBodies) waves.
Proof.
  intros Hlen. unfold INT_MAX in Hlen. unfold dft.
  rewrite int_wrap_small by lia. rewrite Nat2Z.id.
  rewrite firstn_all, skipn_all. apply app_nil_r.
Qed.

(** C4 (as amended): for every list of at most [INT_MAX] waves, after
    [dft] the amplitude of every wave is
    [(sum_b q_b cos(theta_b), sum_b q_b sin(theta_b))] over the [numBodies]
    bodies, with [q_b] the source strength of the body [b] and [theta_b]
    the phase [sum_d K[d] * x_b[d] * (2 pi / cycle[d])]; the wave vectors
    are kept. *)
Theorem dft_amplitudes (waves : Waves) (Jbodies : Vec4Mem) (numBodies : Z) :
  (Z.of_nat (length waves) <= INT_MAX)%Z ->
  dft cycle waves Jbodies numBodies =
  map (fun W =>
         Wave.mk (Wave.K W)
           (Rsum (map (fun b => w3 (Jbodies b)
                                 * cos (theta cycle (Wave.K W) (Jbodies b)))
                      (seq 0 (Z.to_nat numBodies))))
           (Rsum (map (fun b => w3 (Jbodies b)
                                 * sin (theta cycle (Wave.K W) (Jbodies b)))
                      (seq 0 (Z.to_nat numBodies)))))
      waves.
Proof.
  intros Hlen. rewrite (dft_within_int waves Jbodies numBodies Hlen).
  apply map_ext. intros W. apply dft_wave_sums.
Qed.

(** The accumulation of [idft] over the waves, for one body. *)
Lemma idft_wave_fold (J : vec4) (waves : Waves) (T : vec4) :
  fold_left (idft_wave cycle J) waves T =
  mkvec4
    (w0 T + idft_potential cycle waves J)
    (w1 T - Rsum (map (fun W => idft_dtmp cycle J W * v0 (Wave.K W)) waves))
    (w2 T - Rsum (map (fun W => idft_dtmp cycle J W * v1 (Wave.K W)) waves))
    (w3 T - Rsum (map (fun W => idft_dtmp cycle J W * v2 (Wave.K W)) waves)).
Proof.
  revert T. unfold idft_potential.
  induction waves as [|W waves IH]; intros T; simpl.
  - destruct T; simpl. f_equal; ring.
  - rewrite IH. unfold idft_wave, idft_dtmp. simpl. rewrite phase_theta.
    f_equal; ring.
Qed.

Lemma idft_body_spec (waves : Waves) (J : vec4) :
  idft_body cycle waves J =
  mkvec4 (idft_potential cycle waves J)
         (idft_force cycle waves J v0 (v0 cycle))
         (idft_force cycle waves J v1 (v1 cycle))
         (idft_force cycle waves J v2 (v2 cycle)).
Proof.
  unfold idft_body. rewrite idft_wave_fold. unfold idft_force, scale, M_PI.
  simpl. f_equal; ring.
Qed.

(** C5: for every body [b] below [numBodies], [idft] adds to the
    accumulator [Ibodies[b]] the potential [sum_W (real_W cos(theta_W) +
    imag_W sin(theta_W))] and, on each axis [d], the force
    [-(sum_W dtmp_W K_W[d]) * (2 pi / cycle[d])], with
    [dtmp_W = real_W sin(theta_W) - imag_W cos(theta_W)] and [theta_W] the
    phase of the forward transform; the prior values are kept under the
    sum, and no other accumulator changes. *)
Theorem idft_increments (waves : Waves) (Ibodies Jbodies : Vec4Mem)
  (numBodies : Z) (b : nat) :
  idft cycle waves Ibodies Jbodies numBodies b =
  if (b <? Z.to_nat numBodies)%nat then
    mkvec4
      (w0 (Ibodies b) + idft_potential cycle waves (Jbodies b))
      (w1 (Ibodies b) + idft_force cycle waves (Jbodies b) v0 (v0 cycle))
      (w2 (Ibodies b) + idft_force cycle waves (Jbodies b) v1 (v1 cycle))
      (w3 (Ibodies b) + idft_force cycle waves (Jbodies b) v2 (v2 cycle))
  else Ibodies b.
Proof.
  unfold idft.
  rewrite (fold_upd_seq
             (fun b T => vec4_add T (idft_body cycle waves (Jbodies b)))).
  simpl. rewrite idft_body_spec. reflexivity.
Qed.

(** *** The reciprocal filter *)

Lemma norm_scaled (K : vec3) :
  norm (vec3_mul K (scale cycle)) = K2_spec cycle K.
Proof. unfold norm, vec3_mul, scale, K2_spec, M_PI. simpl. ring. Qed.

Lemma wavePart_filter_map (waves : Waves) :
  wavePart_filter alpha sigma cycle waves =
  map (fun W =>
         Wave.mk (Wave.K W)
                 (Wave.REAL W * filter_factor alpha sigma cycle (Wave.K W))
                 (Wave.IMAG W * filter_factor alpha sigma cycle (Wave.K W)))
      waves.
Proof.
  unfold wavePart_filter. apply map_ext. intros W.
  rewrite norm_scaled. unfold filter_factor.
  replace (2 / sigma / v0 cycle / v1 cycle / v2 cycle)
    with (2 / (sigma * v0 cycle * v1 cycle * v2 cycle))
    by (unfold Rdiv; rewrite !Rinv_mult; ring).
  replace (- K2_spec cycle (Wave.K W) * (1 / (4 * alpha * alpha)))
    with (- K2_spec cycle (Wave.K W) / (4 * alpha ^ 2))
    by (unfold Rdiv; replace (4 * alpha ^ 2) with (4 * alpha * alpha) by ring;
        ring).
  reflexivity.
Qed.

(** The vector of every generated wave is a nonzero integer vector, for
    every [ksize]. *)
Lemma initWaves_nonzero (ksize : Z) (w : Wave.t) :
  In w (initWaves ksize) ->
  exists l m n : Z, w = wave_of l m n /\ (l <> 0 \/ m <> 0 \/ n <> 0)%Z.
Proof.
  intros Hw. apply initWaves_In in Hw.
  destruct Hw as [l [m [n [-> [Hl [Hm [Hn _]]]]]]].
  exists l, m, n. split; [reflexivity|].
  destruct (Z.eqb_spec l 0) as [El|El]; [|now left].
  destruct (Z.eqb_spec m 0) as [Em|Em]; [|right; now left].
  simpl in Hn. right; right. lia.
Qed.

Lemma dft_K (waves : Waves) (Jbodies : Vec4Mem) (numBodies : Z) (W : Wave.t) :
  In W (dft cycle waves Jbodies numBodies) ->
  exists W0 : Wave.t, In W0 waves /\ Wave.K W = Wave.K W0.
Proof.
  unfold dft. intros HW. apply in_app_or in HW.
  assert (Hsub : forall W0 : Wave.t,
             In W0 (firstn (Z.to_nat (int_wrap (Z.of_nat (length waves))))
                      waves)
             \/ In W0 (skipn (Z.to_nat (int_wrap (Z.of_nat (length waves))))
                         waves) ->
             In W0 waves).
  { intros W0 H0.
    rewrite <- (firstn_skipn (Z.to_nat (int_wrap (Z.of_nat (length waves))))
                  waves).
    now apply in_or_app. }
  destruct HW as [HW|HW].
  - apply in_map_iff in HW. destruct HW as [W0 [<- HW0]].
    exists W0. split; [apply Hsub; now left|].
    now rewrite dft_wave_sums.
  - exists W. split; [apply Hsub; now right|reflexivity].
Qed.

Lemma K2_spec_pos (l m n : Z) :
  v0 cycle <> 0 -> v1 cycle <> 0 -> v2 cycle <> 0 ->
  (l <> 0 \/ m <> 0 \/ n <> 0)%Z ->
  0 < K2_spec cycle (mkvec3 (IZR l) (IZR m) (IZR n)).
Proof.
  intros H0 H1 H2 Hnz. unfold K2_spec. simpl.
  assert (Hpi : 0 < PI) by apply PI_RGT_0.
  assert (Hs : forall c : R, c <> 0 -> 2 * PI / c <> 0).
  { intros c Hc. unfold Rdiv. apply Rmult_integral_contrapositive_currified.
    - lra.
    - now apply Rinv_neq_0_compat. }
  assert (Hsq : forall x : R, 0 <= x ^ 2) by (intros x; apply pow2_ge_0).
  assert (Hsqp : forall x : R, x <> 0 -> 0 < x ^ 2).
  { intros x Hx. destruct (Hsq x) as [Hlt|Heq]; [exact Hlt|].
    exfalso. apply Hx. symmetry in Heq.
    replace (x ^ 2) with (x * x) in Heq by ring.
    apply Rmult_integral in Heq. tauto. }
  assert (Hz : forall z : Z, z <> 0%Z -> IZR z <> 0).
  { intros z Hzne Heq. apply Hzne. now apply eq_IZR. }
  pose proof (Hsq (IZR l * (2 * PI / v0 cycle))) as P0.
  pose proof (Hsq (IZR m * (2 * PI / v1 cycle))) as P1.
  pose proof (Hsq (IZR n * (2 * PI / v2 cycle))) as P2.
  destruct Hnz as [Hl|[Hm|Hn]].
  - assert (0 < (IZR l * (2 * PI / v0 cycle)) ^ 2).
    { apply Hsqp. apply Rmult_integral_contrapositive_currified; auto. }
    lra.
  - assert (0 < (IZR m * (2 * PI / v1 cycle)) ^ 2).
    { apply Hsqp. apply Rmult_integral_contrapositive_currified; auto. }
    lra.
  - assert (0 < (IZR n * (2 * PI / v2 cycle)) ^ 2).
    { apply Hsqp. apply Rmult_integral_contrapositive_currified; auto. }
    lra.
Qed.

(** C3: the filter loop of [wavePart] multiplies the real and the imaginary
    amplitude of every wave by [coef * exp(-K^2/(4 alpha^2)) / K^2], with
    [K] the wave vector scaled by [2 pi / cycle[d]] on each axis and
    [coef = 2/(sigma cycle_x cycle_y cycle_z)], and keeps the wave vector;
    [wavePart] is the inverse transform of the filtered forward transform
    of the generated waves; and [K^2] is nonzero for every one of these
    waves (the box lengths being nonzero), the zero vector not being
    generated. *)
Theorem wavePart_filter_factor (ksize : Z) (Ibodies Jbodies : Vec4Mem)
  (numBodies : Z) :
  v0 cycle <> 0 -> v1 cycle <> 0 -> v2 cycle <> 0 ->
  (forall waves : Waves,
      wavePart_filter alpha sigma cycle waves =
      map (fun W =>
             Wave.mk (Wave.K W)
                     (Wave.REAL W * filter_factor alpha sigma cycle (Wave.K W))
                     (Wave.IMAG W * filter_factor alpha sigma cycle (Wave.K W)))
          waves)
  /\ wavePart ksize alpha sigma cycle Ibodies Jbodies numBodies =
     idft cycle
          (wavePart_filter alpha sigma cycle
             (dft cycle (initWaves ksize) Jbodies numBodies))
          Ibodies Jbodies numBodies
  /\ (forall W : Wave.t,
         In W (dft cycle (initWaves ksize) Jbodies numBodies) ->
         K2_spec cycle (Wave.K W) <> 0).
Proof.
  intros H0 H1 H2. split; [exact wavePart_filter_map|].
  split; [reflexivity|].
  intros W HW. apply dft_K in HW. destruct HW as [W0 [HW0 ->]].
  apply initWaves_nonzero in HW0. destruct HW0 as [l [m [n [-> Hnz]]]].
  simpl. apply Rgt_not_eq. now apply K2_spec_pos.
Qed.

End Transforms.

(** ** Properties of the corrections *)

Section Corrections.

(** C9: [selfTerm] subtracts [2/sqrt(pi) * q * alpha] from the potential of
    every body, [q] being the source strength of that body, and leaves the
    three force components, the position, the source strength and the
    bookkeeping fields as they were; the bodies keep their number and
    order. *)
Theorem selfTerm_frame (alpha : real_t) (bodies : Bodies) :
  Forall2
    (fun B B' : Body.t =>
       w0 (Body.TRG B') = w0 (Body.TRG B) - 2 / sqrt PI * Body.SRC B * alpha
       /\ w1 (Body.TRG B') = w1 (Body.TRG B)
       /\ w2 (Body.TRG B') = w2 (Body.TRG B)
       /\ w3 (Body.TRG B') = w3 (Body.TRG B)
       /\ Body.X B' = Body.X B
       /\ Body.SRC B' = Body.SRC B
       /\ Body.IBODY B' = Body.IBODY B
       /\ Body.ICELL B' = Body.ICELL B
       /\ Body.WEIGHT B' = Body.WEIGHT B)
    bodies (selfTerm alpha bodies).
Proof.
  induction bodies as [|B bodies IH]; simpl; constructor.
  - unfold M_2_SQRTPI. simpl. repeat split; reflexivity.
  - exact IH.
Qed.

Lemma getDipole_fold (X0 : vec3) (bodies : Bodies) (d : vec3) :
  fold_left
    (fun dipole B =>
       vec3_add dipole
         (vec3_scale (vec3_sub (Body.X B) X0)
                     (std_real (complex_of_real (Body.SRC B)))))
    bodies d =
  mkvec3
    (v0 d + Rsum (map (fun B => (v0 (Body.X B) - v0 X0) * Body.SRC B) bodies))
    (v1 d + Rsum (map (fun B => (v1 (Body.X B) - v1 X0) * Body.SRC B) bodies))
    (v2 d + Rsum (map (fun B => (v2 (Body.X B) - v2 X0) * Body.SRC B) bodies)).
Proof.
  revert d. induction bodies as [|B bodies IH]; intros d; simpl.
  - destruct d; simpl. f_equal; ring.
  - rewrite IH. simpl. f_equal; ring.
Qed.

(** C8: [getDipole] returns the sum over the bodies of
    [(position - X0) * source strength] and leaves the bodies as they
    were; [dipoleCorrection] subtracts
    [4 pi/(3 V) * |dipole|^2 / (numBodies * q)] from the potential of every
    body, [q] its source strength, and [4 pi/(3 V) * dipole[d]] from the
    force on each axis [d], with [V = cycle_x cycle_y cycle_z]; it changes
    no other field. *)
Theorem dipole_correction_formulas (bodies : Bodies) (X0 dipole : vec3)
  (numBodies : Z) (cycle : vec3) :
  fst (getDipole bodies X0) =
    mkvec3
      (Rsum (map (fun B => (v0 (Body.X B) - v0 X0) * Body.SRC B) bodies))
      (Rsum (map (fun B => (v1 (Body.X B) - v1 X0) * Body.SRC B) bodies))
      (Rsum (map (fun B => (v2 (Body.X B) - v2 X0) * Body.SRC B) bodies))
  /\ snd (getDipole bodies X0) = bodies
  /\ Forall2
       (fun B B' : Body.t =>
          let V := v0 cycle * v1 cycle * v2 cycle in
          let dipole2 := v0 dipole ^ 2 + v1 dipole ^ 2 + v2 dipole ^ 2 in
          w0 (Body.TRG B') =
            w0 (Body.TRG B)
            - 4 * PI / (3 * V) * dipole2 / (IZR numBodies * Body.SRC B)
          /\ w1 (Body.TRG B') = w1 (Body.TRG B) - 4 * PI / (3 * V) * v0 dipole
          /\ w2 (Body.TRG B') = w2 (Body.TRG B) - 4 * PI / (3 * V) * v1 dipole
          /\ w3 (Body.TRG B') = w3 (Body.TRG B) - 4 * PI / (3 * V) * v2 dipole
          /\ Body.X B' = Body.X B
          /\ Body.SRC B' = Body.SRC B
          /\ Body.IBODY B' = Body.IBODY B
          /\ Body.ICELL B' = Body.ICELL B
          /\ Body.WEIGHT B' = Body.WEIGHT B)
       bodies (dipoleCorrection bodies dipole numBodies cycle).
Proof.
  split.
  { unfold getDipole. simpl. rewrite getDipole_fold. simpl. f_equal; ring. }
  split; [reflexivity|].
  induction bodies as [|B bodies IH]; simpl; constructor.
  - unfold M_PI, norm. simpl.
    replace (3 * (v0 cycle * v1 cycle * v2 cycle))
      with (3 * v0 cycle * v1 cycle * v2 cycle) by ring.
    repeat split; try reflexivity.
    unfold Rdiv. rewrite (Rinv_mult (IZR numBodies)). ring.
  - exact IH.
Qed.

(** *** Division by zero in dipoleCorrection *)

Lemma div_chk_nonzero (x y : PrimFloat.float) :
  PrimFloat.is_zero y = false -> F64.div_chk x y = Some (PrimFloat.div x y).
Proof. intros Hy. unfold F64.div_chk. now rewrite Hy. Qed.

Lemma div_chk_zero (x y : PrimFloat.float) :
  PrimFloat.is_zero y = true -> F64.div_chk x y = None.
Proof. intros Hy. unfold F64.div_chk. now rewrite Hy. Qed.

Lemma div_chk_Some (x y q : PrimFloat.float) :
  F64.div_chk x y = Some q -> q = PrimFloat.div x y.
Proof.
  unfold F64.div_chk. destruct (PrimFloat.is_zero y); [discriminate|].
  intros H. now injection H.
Qed.

Lemma mapM_Exists_None {A B : Type} (f : A -> option B) (l : list A) :
  Exists (fun a => f a = None) l -> mapM f l = None.
Proof.
  induction 1 as [a l Ha|a l _ IH]; simpl.
  - now rewrite Ha.
  - destruct (f a); [|reflexivity]. now rewrite IH.
Qed.

Lemma mapM_Forall_Some {A B : Type} (f : A -> option B) (g : A -> B)
  (l : list A) :
  Forall (fun a => f a = Some (g a)) l -> mapM f l = Some (map g l).
Proof.
  induction 1 as [|a l Ha _ IH]; simpl; [reflexivity|].
  now rewrite Ha, IH.
Qed.

Lemma mapM_Some_map {A B : Type} (f : A -> option B) (g : A -> B)
  (l : list A) (res : list B) :
  (forall (a : A) (b : B), f a = Some b -> b = g a) ->
  mapM f l = Some res -> res = map g l.
Proof.
  intros Hf. revert res. induction l as [|a l IH]; intros res; simpl.
  - intros H. now injection H.
  - destruct (f a) as [b|] eqn:Ea; [|discriminate].
    destruct (mapM f l) as [bs|]; [|discriminate].
    intros H. injection H as <-. f_equal; [now apply Hf|now apply IH].
Qed.

(** Whenever the observed version returns, it returns what
    [dipoleCorrection] computes. *)
Lemma dipoleCorrection_chk_sound (bodies : list F64.Body)
  (dipole : F64.vec3) (numBodies : Z) (cycle : F64.vec3)
  (res : list F64.Body) :
  F64.dipoleCorrection_chk bodies dipole numBodies cycle = Some res ->
  res = F64.dipoleCorrection bodies dipole numBodies cycle.
Proof.
  unfold F64.dipoleCorrection_chk, F64.dipoleCorrection.
  destruct (F64.div_chk _ _) as [coef|] eqn:Ecoef; [|discriminate].
  apply div_chk_Some in Ecoef. rewrite <- Ecoef.
  apply mapM_Some_map. intros B B'.
  destruct (F64.div_chk (PrimFloat.mul coef (F64.norm dipole)) _)
    as [t|] eqn:Et; [|discriminate].
  destruct (F64.div_chk t (F64.SRC B)) as [u|] eqn:Eu; [|discriminate].
  intros H. injection H as <-.
  apply div_chk_Some in Et, Eu. now subst t u.
Qed.

(** The conversion of a nonzero [int] to binary64 is nonzero (it is exact:
    an [int] has at most 32 significant bits, the format 53). *)
Lemma digits2_pos_iter_xO (p k : positive) :
  SpecFloat.digits2_pos (Pos.iter xO p k) = (SpecFloat.digits2_pos p + k)%positive.
Proof.
  induction k as [|k IH] using Pos.peano_ind.
  - simpl. lia.
  - rewrite Pos.iter_succ. simpl. rewrite IH. lia.
Qed.

Lemma digits2_pos_bound (p : positive) (k : Z) :
  (Zpos p < 2 ^ k)%Z -> (0 <= k)%Z -> (Zpos (SpecFloat.digits2_pos p) <= k)%Z.
Proof.
  revert k. induction p as [p IH|p IH|]; intros k Hp Hk; simpl.
  - assert (k <> 0)%Z by (intros ->; simpl in Hp; lia).
    assert (Hk' : (0 <= k - 1)%Z) by lia.
    assert (E : (2 ^ k = 2 * 2 ^ (k - 1))%Z).
    { rewrite <- Z.pow_succ_r by lia. f_equal. lia. }
    specialize (IH (k - 1)%Z). rewrite Pos2Z.inj_succ. lia.
  - assert (k <> 0)%Z by (intros ->; simpl in Hp; lia).
    assert (Hk' : (0 <= k - 1)%Z) by lia.
    assert (E : (2 ^ k = 2 * 2 ^ (k - 1))%Z).
    { rewrite <- Z.pow_succ_r by lia. f_equal. lia. }
    specialize (IH (k - 1)%Z). rewrite Pos2Z.inj_succ. lia.
  - assert (k <> 0)%Z by (intros ->; simpl in Hp; lia). lia.
Qed.


Lemma fexp64 (x : Z) :
  (-1021 <= x)%Z ->
  SpecFloat.fexp FloatOps.prec FloatOps.emax x = (x - 53)%Z.
Proof.
  intros Hx. unfold SpecFloat.fexp, SpecFloat.emin, FloatOps.prec, FloatOps.emax.
  lia.
Qed.

Lemma binary_round_aux_canonical (sx : bool) (m : positive) (e : Z) :
  Zpos (SpecFloat.digits2_pos m) = 53%Z ->
  (-1074 <= e <= 971)%Z ->
  SpecFloat.binary_round_aux FloatOps.prec FloatOps.emax sx (Zpos m) e
    SpecFloat.loc_Exact
  = SpecFloat.S754_finite sx m e.
Proof.
  intros Hd He.
  assert (Hz : (SpecFloat.fexp FloatOps.prec FloatOps.emax
                  (Zpos (SpecFloat.digits2_pos m) + e) - e = 0)%Z).
  { rewrite fexp64 by lia. lia. }
  unfold SpecFloat.binary_round_aux, SpecFloat.shr_fexp.
  cbn [SpecFloat.Zdigits2]. rewrite Hz.
  cbn [SpecFloat.shr SpecFloat.shr_record_of_loc SpecFloat.shr_m
       SpecFloat.loc_of_shr_record SpecFloat.round_nearest_even
       SpecFloat.Zdigits2].
  rewrite Hz.
  cbn [SpecFloat.shr SpecFloat.shr_record_of_loc SpecFloat.shr_m].
  replace (e <=? FloatOps.emax - FloatOps.prec)%Z with true; [reflexivity|].
  symmetry. apply Z.leb_le. unfold FloatOps.emax, FloatOps.prec. lia.
Qed.

Lemma binary_round_finite (sx : bool) (p : positive) :
  (Zpos (SpecFloat.digits2_pos p) <= 53)%Z ->
  exists (m : positive) (e : Z),
    SpecFloat.binary_round FloatOps.prec FloatOps.emax sx p 0
    = SpecFloat.S754_finite sx m e.
Proof.
  intros Hd. unfold SpecFloat.binary_round.
  rewrite Z.add_0_r, fexp64 by lia.
  unfold SpecFloat.shl_align. rewrite Z.sub_0_r.
  destruct (Z.pos (SpecFloat.digits2_pos p) - 53)%Z as [|q|q] eqn:Eq;
    try lia.
  - exists p, 0%Z. apply binary_round_aux_canonical; lia.
  - exists (Pos.iter xO p q), (Z.neg q).
    apply binary_round_aux_canonical; [|lia].
    rewrite digits2_pos_iter_xO. lia.
Qed.

Lemma of_uint63_nonzero (z : Z) :
  (0 < z < 2 ^ 53)%Z ->
  PrimFloat.is_zero (PrimFloat.of_uint63 (Uint63.of_Z z)) = false
  /\ PrimFloat.is_zero (PrimFloat.opp (PrimFloat.of_uint63 (Uint63.of_Z z)))
     = false.
Proof.
  intros Hz. unfold PrimFloat.is_zero.
  rewrite !FloatAxioms.eqb_spec, FloatAxioms.opp_spec,
    FloatAxioms.of_uint63_spec.
  assert (Hphi : Uint63Axioms.to_Z (Uint63.of_Z z) = z).
  { rewrite Uint63.of_Z_spec. apply Z.mod_small.
    split; [lia|]. apply Z.lt_trans with (2 ^ 53)%Z; [lia|reflexivity]. }
  rewrite Hphi.
  destruct z as [|p|p]; try lia.
  cbn [SpecFloat.binary_normalize].
  destruct (binary_round_finite false p) as [m [e ->]].
  { apply digits2_pos_bound; lia. }
  split; reflexivity.
Qed.

Lemma real_of_int_nonzero (z : Z) :
  z <> 0%Z -> (- 2 ^ 31 <= z < 2 ^ 31)%Z ->
  PrimFloat.is_zero (F64.real_of_int z) = false.
Proof.
  intros Hne Hr. unfold F64.real_of_int.
  destruct (Z.ltb_spec z 0).
  - apply of_uint63_nonzero. lia.
  - apply of_uint63_nonzero. lia.
Qed.

(** C10 (as amended): in binary64, when [numBodies] is nonzero and the
    product [3 * cycle[0] * cycle[1] * cycle[2]] the code computes is
    nonzero, [dipoleCorrection] divides by zero nowhere if the source
    strength of every body is nonzero, and then returns its result; it
    divides by zero in the update of the potential as soon as one body has
    source strength zero, and such inputs exist. *)
Theorem dipoleCorrection_binary64_division (bodies : list F64.Body)
  (dipole : F64.vec3) (numBodies : Z) (cycle : F64.vec3) :
  numBodies <> 0%Z ->
  (- 2 ^ 31 <= numBodies < 2 ^ 31)%Z ->
  PrimFloat.is_zero (F64.coef_divisor cycle) = false ->
  (Forall (fun B => PrimFloat.is_zero (F64.SRC B) = false) bodies ->
   F64.dipoleCorrection_chk bodies dipole numBodies cycle =
   Some (F64.dipoleCorrection bodies dipole numBodies cycle))
  /\ (Exists (fun B => PrimFloat.is_zero (F64.SRC B) = true) bodies ->
      F64.dipoleCorrection_chk bodies dipole numBodies cycle = None)
  /\ (exists B0 : F64.Body,
         PrimFloat.is_zero (F64.SRC B0) = true
         /\ F64.dipoleCorrection_chk [B0] dipole numBodies cycle = None).
Proof.
  intros Hne Hrange HV. unfold F64.coef_divisor in HV.
  assert (Hn := real_of_int_nonzero numBodies Hne Hrange).
  assert (Hex : forall bs : list F64.Body,
             Exists (fun B => PrimFloat.is_zero (F64.SRC B) = true) bs ->
             F64.dipoleCorrection_chk bs dipole numBodies cycle = None).
  { intros bs Hbs. unfold F64.dipoleCorrection_chk.
    rewrite (div_chk_nonzero _ _ HV).
    apply mapM_Exists_None.
    apply Exists_impl with (2 := Hbs). intros B HB.
    rewrite (div_chk_nonzero _ _ Hn). rewrite (div_chk_zero _ _ HB).
    reflexivity. }
  split.
  { intros Hall. unfold F64.dipoleCorrection_chk, F64.dipoleCorrection.
    rewrite (div_chk_nonzero _ _ HV).
    apply mapM_Forall_Some.
    apply Forall_impl with (2 := Hall). intros B HB.
    rewrite (div_chk_nonzero _ _ Hn), (div_chk_nonzero _ _ HB).
    reflexivity. }
  split; [apply Hex|].
  exists F64.null_body.
  split; [reflexivity|].
  apply Hex. constructor. reflexivity.
Qed.

(** In binary64 the product [3 * cycle[0] * cycle[1] * cycle[2]] of three
    nonzero box lengths of 2^-366 is zero: with [numBodies = 1] and a body
    of source strength 1 the division that gives [coef] is by zero. *)
Lemma dipoleCorrection_underflow :
  PrimFloat.is_zero F64.tiny = false
  /\ 1%Z <> 0%Z
  /\ PrimFloat.is_zero (F64.SRC F64.unit_body) = false
  /\ PrimFloat.is_zero (F64.coef_divisor F64.tiny_box) = true
  /\ F64.dipoleCorrection_chk [F64.unit_body] F64.unit_dipole 1 F64.tiny_box
     = None.
Proof.
  split; [reflexivity|]. split; [discriminate|].
  split; [reflexivity|]. split; reflexivity.
Qed.

End Corrections.

(** ** Properties of the real-space kernel *)

Section RealSpaceKernel.

Variable erfc : real_t -> real_t.
Variable alpha cutoff : real_t.

Lemma Rltb_true (x y : R) : Rltb x y = true <-> x < y.
Proof.
  unfold Rltb. destruct (Rlt_dec x y); split; auto; discriminate.
Qed.

Lemma Rltb_false (x y : R) : Rltb x y = false <-> ~ x < y.
Proof.
  unfold Rltb. destruct (Rlt_dec x y); split; auto; try discriminate.
  contradiction.
Qed.

Lemma norm_length2 (a : vec3) : norm a = length2 a.
Proof. unfold norm, length2. ring. Qed.

Lemma length2_nonneg (a : vec3) : 0 <= length2 a.
Proof.
  unfold length2.
  pose proof (pow2_ge_0 (v0 a)). pose proof (pow2_ge_0 (v1 a)).
  pose proof (pow2_ge_0 (v2 a)). lra.
Qed.

(** The test of the kernel. *)
Lemma P2P_pair_in (Bi Bj : Body.t) (Xp : vec3) :
  0 < length2 (separation Bi Bj Xp) < cutoff * cutoff ->
  Rltb 0 (norm (separation Bi Bj Xp))
  && Rltb (norm (separation Bi Bj Xp)) (cutoff * cutoff) = true.
Proof.
  intros [H1 H2]. rewrite norm_length2.
  apply andb_true_intro. split; now apply Rltb_true.
Qed.

Lemma P2P_pair_out (Bi Bj : Body.t) (Xp : vec3) :
  ~ 0 < length2 (separation Bi Bj Xp) < cutoff * cutoff ->
  Rltb 0 (norm (separation Bi Bj Xp))
  && Rltb (norm (separation Bi Bj Xp)) (cutoff * cutoff) = false.
Proof.
  intros H. rewrite norm_length2.
  apply andb_false_iff.
  destruct (Rlt_dec 0 (length2 (separation Bi Bj Xp))) as [H1|H1].
  - right. apply Rltb_false. intro H2. apply H. split; assumption.
  - left. now apply Rltb_false.
Qed.

(** The pass skipped: the target is returned as it is. *)
Lemma P2P_pair_skip (Bi Bj : Body.t) (Xp : vec3) :
  ~ 0 < length2 (separation Bi Bj Xp) < cutoff * cutoff ->
  P2P_pair erfc alpha cutoff Bi Bj Xp = Bi.
Proof.
  intros H. unfold P2P_pair. fold (separation Bi Bj Xp).
  now rewrite P2P_pair_out.
Qed.

(** The pass taken, in the words of the code. *)
Lemma P2P_pair_take (Bi Bj : Body.t) (Xp : vec3) :
  0 < length2 (separation Bi Bj Xp) < cutoff * cutoff ->
  P2P_pair erfc alpha cutoff Bi Bj Xp =
  let dX := separation Bi Bj Xp in
  let R2s := norm dX * alpha * alpha in
  let Rs := sqrt R2s in
  let dtmp :=
    Body.SRC Bj
    * (M_2_SQRTPI * exp (- R2s) * (1 / Rs * (1 / Rs))
       + erfc Rs * (1 / Rs * (1 / Rs) * (1 / Rs)))
    * (alpha * alpha * alpha) in
  Body.set_TRG Bi
    (mkvec4 (w0 (Body.TRG Bi) + Body.SRC Bj * erfc Rs * (1 / Rs) * alpha)
            (w1 (Body.TRG Bi) - v0 dX * dtmp)
            (w2 (Body.TRG Bi) - v1 dX * dtmp)
            (w3 (Body.TRG Bi) - v2 dX * dtmp)).
Proof.
  intros H. unfold P2P_pair. fold (separation Bi Bj Xp).
  now rewrite P2P_pair_in.
Qed.

(** The kernel writes the accumulator only. *)
Lemma P2P_pair_fields (Bi Bj : Body.t) (Xp : vec3) :
  Body.X (P2P_pair erfc alpha cutoff Bi Bj Xp) = Body.X Bi
  /\ Body.SRC (P2P_pair erfc alpha cutoff Bi Bj Xp) = Body.SRC Bi
  /\ Body.IBODY (P2P_pair erfc alpha cutoff Bi Bj Xp) = Body.IBODY Bi
  /\ Body.ICELL (P2P_pair erfc alpha cutoff Bi Bj Xp) = Body.ICELL Bi
  /\ Body.WEIGHT (P2P_pair erfc alpha cutoff Bi Bj Xp) = Body.WEIGHT Bi.
Proof.
  unfold P2P_pair.
  destruct (Rltb 0 _ && Rltb _ _); simpl; repeat split; reflexivity.
Qed.

(** The kernel reads the position and the source strength of the source
    only. *)
Lemma P2P_pair_source (Bi Bj Bj' : Body.t) (Xp : vec3) :
  Body.X Bj = Body.X Bj' -> Body.SRC Bj = Body.SRC Bj' ->
  P2P_pair erfc alpha cutoff Bi Bj Xp = P2P_pair erfc alpha cutoff Bi Bj' Xp.
Proof.
  intros HX HS. unfold P2P_pair. now rewrite HX, HS.
Qed.

(** With [alpha > 0], the code's [Rs = sqrt(R2 alpha alpha)] is
    [R alpha], and its potential and [dtmp] are those of the
    specification. *)
Lemma kernel_formulas (q R2 : R) :
  0 < alpha -> 0 < R2 ->
  let Rs := sqrt (R2 * alpha * alpha) in
  Rs = sqrt R2 * alpha
  /\ q * erfc Rs * (1 / Rs) * alpha = p2p_potential erfc alpha q (sqrt R2)
  /\ q * (M_2_SQRTPI * exp (- (R2 * alpha * alpha)) * (1 / Rs * (1 / Rs))
          + erfc Rs * (1 / Rs * (1 / Rs) * (1 / Rs)))
     * (alpha * alpha * alpha)
     = p2p_dtmp erfc alpha q (sqrt R2).
Proof.
  intros Ha HR2. simpl.
  assert (Hr : 0 < sqrt R2) by now apply sqrt_lt_R0.
  assert (HRs : sqrt (R2 * alpha * alpha) = sqrt R2 * alpha).
  { rewrite Rmult_assoc. rewrite sqrt_mult; [|lra|nra].
    rewrite sqrt_square; lra. }
  assert (Hsq : R2 * alpha * alpha = (sqrt R2 * alpha) ^ 2).
  { rewrite <- (sqrt_sqrt R2) at 1 by lra. ring. }
  split; [exact HRs|].
  rewrite HRs. unfold p2p_potential, p2p_dtmp, M_2_SQRTPI.
  rewrite Hsq.
  assert (Hpi : sqrt PI <> 0).
  { apply Rgt_not_eq. apply sqrt_lt_R0. apply PI_RGT_0. }
  split; field; repeat split; try assumption; lra.
Qed.

(** Inside the cutoff, a source of nonzero strength changes the
    accumulator, whatever [erfc] is. *)
Lemma P2P_pair_nonzero (Bi Bj : Body.t) (Xp : vec3) :
  alpha <> 0 ->
  0 < length2 (separation Bi Bj Xp) < cutoff * cutoff ->
  Body.SRC Bj <> 0 ->
  Body.TRG (P2P_pair erfc alpha cutoff Bi Bj Xp) <> Body.TRG Bi.
Proof.
  intros Ha Hin Hq Heq.
  rewrite (P2P_pair_take Bi Bj Xp Hin) in Heq. simpl in Heq.
  set (dX := separation Bi Bj Xp) in *.
  rewrite norm_length2 in Heq.
  set (Rs := sqrt (length2 dX * alpha * alpha)) in *.
  assert (HRs : 0 < Rs).
  { apply sqrt_lt_R0. destruct Hin as [Hpos _].
    assert (0 < alpha * alpha) by nra. nra. }
  assert (Hinv : 0 < 1 / Rs) by (apply Rdiv_lt_0_compat; lra).
  destruct (Body.TRG Bi) as [t0 t1 t2 t3] eqn:ET. simpl in Heq.
  injection Heq as E0 E1 E2 E3.
  assert (Hpot : Body.SRC Bj * erfc Rs * (1 / Rs) * alpha = 0) by lra.
  assert (Herfc : erfc Rs = 0).
  { apply Rmult_integral in Hpot. destruct Hpot as [Hpot|]; [|contradiction].
    apply Rmult_integral in Hpot. destruct Hpot as [Hpot|]; [|lra].
    apply Rmult_integral in Hpot. destruct Hpot as [|]; [contradiction|].
    assumption. }
  rewrite Herfc in E1, E2, E3.
  assert (HM : 0 < M_2_SQRTPI).
  { unfold M_2_SQRTPI. apply Rdiv_lt_0_compat; [lra|].
    apply sqrt_lt_R0. apply PI_RGT_0. }
  assert (Hexp := exp_pos (- (length2 dX * alpha * alpha))).
  set (g := M_2_SQRTPI * exp (- (length2 dX * alpha * alpha))
            * (1 / Rs * (1 / Rs))) in *.
  assert (Hg : 0 < g).
  { unfold g. apply Rmult_lt_0_compat; [|nra].
    apply Rmult_lt_0_compat; assumption. }
  set (dtmp := Body.SRC Bj * (g + 0 * (1 / Rs * (1 / Rs) * (1 / Rs)))
               * (alpha * alpha * alpha)) in *.
  assert (Hd : dtmp <> 0).
  { unfold dtmp. repeat apply Rmult_integral_contrapositive_currified; auto.
    lra. }
  assert (Z0 : v0 dX = 0).
  { assert (H : v0 dX * dtmp = 0) by (simpl; lra).
    apply Rmult_integral in H. tauto. }
  assert (Z1 : v1 dX = 0).
  { assert (H : v1 dX * dtmp = 0) by (simpl; lra).
    apply Rmult_integral in H. tauto. }
  assert (Z2 : v2 dX = 0).
  { assert (H : v2 dX * dtmp = 0) by (simpl; lra).
    apply Rmult_integral in H. tauto. }
  destruct Hin as [Hpos _]. unfold length2 in Hpos.
  rewrite Z0, Z1, Z2 in Hpos. lra.
Qed.

(** *** The two loops of P2P *)

Lemma agree_src_refl (m : BodyMem) : agree_src m m.
Proof. intros j. split; reflexivity. Qed.

Lemma agree_src_upd (m mem : BodyMem) (i : B_iter) (Bj : Body.t) (Xp : vec3) :
  agree_src m mem ->
  agree_src (upd m i (P2P_pair erfc alpha cutoff (m i) Bj Xp)) mem.
Proof.
  intros H j. unfold upd. destruct (Nat.eqb_spec j i) as [->|_].
  - destruct (P2P_pair_fields (m i) Bj Xp) as [HX [HS _]].
    rewrite HX, HS. apply H.
  - apply H.
Qed.

(** The loop over the sources, for the target [i]. *)
Lemma P2P_inner (Xp : vec3) (mem : BodyMem) (i : B_iter) (js : list B_iter)
  (m : BodyMem) :
  agree_src m mem ->
  let m' :=
    fold_left
      (fun m' Bj => upd m' i (P2P_pair erfc alpha cutoff (m' i) (m' Bj) Xp))
      js m in
  m' i = P2P_target erfc alpha cutoff Xp mem js (m i)
  /\ (forall k : B_iter, k <> i -> m' k = m k)
  /\ agree_src m' mem.
Proof.
  revert m. unfold P2P_target.
  induction js as [|j js IH]; intros m Hm; simpl.
  - split; [reflexivity|]. split; [reflexivity|exact Hm].
  - set (m1 := upd m i (P2P_pair erfc alpha cutoff (m i) (m j) Xp)).
    assert (Hm1 : agree_src m1 mem) by (apply agree_src_upd; exact Hm).
    destruct (IH m1 Hm1) as [Hi [Hk Ha]].
    split; [|split].
    + rewrite Hi. unfold m1. rewrite upd_same.
      destruct (Hm j) as [HX HS].
      now rewrite (P2P_pair_source (m i) (m j) (mem j) Xp HX HS).
    + intros k Hne. rewrite (Hk k Hne). unfold m1. now apply upd_other.
    + exact Ha.
Qed.

(** The loop over the targets. *)
Lemma P2P_outer (Xp : vec3) (mem : BodyMem) (js : list B_iter)
  (targets : list B_iter) (m : BodyMem) :
  NoDup targets ->
  agree_src m mem ->
  (forall i : B_iter, In i targets -> m i = mem i) ->
  let m' :=
    fold_left
      (fun m0 Bi =>
         fold_left
           (fun m1 Bj =>
              upd m1 Bi (P2P_pair erfc alpha cutoff (m1 Bi) (m1 Bj) Xp))
           js m0)
      targets m in
  (forall k : B_iter,
      In k targets -> m' k = P2P_target erfc alpha cutoff Xp mem js (mem k))
  /\ (forall k : B_iter, ~ In k targets -> m' k = m k).
Proof.
  revert m. induction targets as [|i targets IH]; intros m Hnd Hm Hinit; simpl.
  - split; [intros k []|reflexivity].
  - inversion Hnd as [|? ? Hni Hnd']; subst.
    destruct (P2P_inner Xp mem i js m Hm) as [Hi [Hk Ha]].
    set (m1 := fold_left
                 (fun m1 Bj =>
                    upd m1 i (P2P_pair erfc alpha cutoff (m1 i) (m1 Bj) Xp))
                 js m) in *.
    assert (Hinit1 : forall i0 : B_iter, In i0 targets -> m1 i0 = mem i0).
    { intros i0 Hi0. rewrite Hk.
      - apply Hinit. now right.
      - intros ->. contradiction. }
    destruct (IH m1 Hnd' Ha Hinit1) as [Hin Hout].
    split.
    + intros k [<-|Hk'].
      * rewrite (Hout i Hni). rewrite Hi. f_equal. apply Hinit. now left.
      * now apply Hin.
    + intros k Hnk. rewrite Hout by (intro; apply Hnk; now right).
      apply Hk. intros ->. apply Hnk. now left.
Qed.

Lemma in_cell_seq (C : Cell.t) (k : B_iter) :
  in_cell C k = true <-> In k (seq (Cell.BODY C) (Cell.NBODY C)).
Proof.
  unfold in_cell. rewrite in_seq, andb_true_iff, Nat.leb_le, Nat.ltb_lt.
  reflexivity.
Qed.

(** [P2P] on a storage: every target of [Ci] goes through the passes for
    the sources of [Cj] as the storage held them at the call, in order;
    every other body is left as it is. *)
Lemma P2P_cells (Ci Cj : Cell.t) (Xp : vec3) (mem : BodyMem) (k : B_iter) :
  P2P erfc alpha cutoff Ci Cj Xp mem k =
  if in_cell Ci k
  then P2P_target erfc alpha cutoff Xp mem
         (seq (Cell.BODY Cj) (Cell.NBODY Cj)) (mem k)
  else mem k.
Proof.
  unfold P2P.
  destruct (P2P_outer Xp mem (seq (Cell.BODY Cj) (Cell.NBODY Cj))
              (seq (Cell.BODY Ci) (Cell.NBODY Ci)) mem
              (seq_NoDup _ _) (agree_src_refl mem) (fun _ _ => eq_refl))
    as [Hin Hout].
  destruct (in_cell Ci k) eqn:E.
  - apply Hin. now apply in_cell_seq.
  - apply Hout. intro H. apply in_cell_seq in H. congruence.
Qed.

(** *** The increment of one pass *)

Lemma P2P_increment_skip (Bi Bj : Body.t) (Xp : vec3) :
  ~ 0 < length2 (separation Bi Bj Xp) < cutoff * cutoff ->
  P2P_increment erfc alpha cutoff Bi Bj Xp = vec4_zero.
Proof.
  intros H. unfold P2P_increment. rewrite (P2P_pair_skip Bi Bj Xp H).
  unfold vec4_sub, vec4_zero. f_equal; ring.
Qed.

Lemma P2P_increment_spec (Bi Bj : Body.t) (Xp : vec3) :
  0 < alpha ->
  0 < length2 (separation Bi Bj Xp) < cutoff * cutoff ->
  let dX := separation Bi Bj Xp in
  let r := sqrt (length2 dX) in
  P2P_increment erfc alpha cutoff Bi Bj Xp =
  mkvec4 (p2p_potential erfc alpha (Body.SRC Bj) r)
         (- (v0 dX * p2p_dtmp erfc alpha (Body.SRC Bj) r))
         (- (v1 dX * p2p_dtmp erfc alpha (Body.SRC Bj) r))
         (- (v2 dX * p2p_dtmp erfc alpha (Body.SRC Bj) r)).
Proof.
  intros Ha Hin. simpl. unfold P2P_increment.
  rewrite (P2P_pair_take Bi Bj Xp Hin). simpl.
  rewrite norm_length2.
  destruct (kernel_formulas (Body.SRC Bj) (length2 (separation Bi Bj Xp)) Ha
              (proj1 Hin)) as [_ [Hpot Hdtmp]].
  simpl in Hpot, Hdtmp. rewrite Hpot, Hdtmp.
  unfold vec4_sub. simpl. f_equal; ring.
Qed.

Lemma length2_swap (Bi Bj : Body.t) :
  length2 (separation Bj Bi vec3_zero) = length2 (separation Bi Bj vec3_zero).
Proof. unfold length2, separation. simpl. ring. Qed.

(** C1 (as amended): [P2P] passes every target of [Ci] through the
    sources of [Cj] and touches no other body.  For a target [i], a source
    [j] and the offset [X_p], with [dX = x_i - x_j - X_p], [R^2 = |dX|^2]
    and [alpha > 0]: when [0 < R^2 < cutoff^2] the potential of [i] gains
    [q_j erfc(R alpha)/(R alpha) alpha] and the force on each axis [d]
    gains [-dX[d] dtmp], [dtmp] as in the specification; when [R^2 = 0] or
    [R^2 >= cutoff^2] the target is left as it is (the contribution is
    exactly zero); a source of nonzero strength changes the accumulator if
    and only if [0 < R^2 < cutoff^2]; no pass changes another field of the
    target. *)
Theorem P2P_kernel (Ci Cj : Cell.t) (Xp : vec3) (mem : BodyMem)
  (Bi Bj : Body.t) :
  0 < alpha ->
  let dX := separation Bi Bj Xp in
  let r := sqrt (length2 dX) in
  let Bi' := P2P_pair erfc alpha cutoff Bi Bj Xp in
  (forall k : B_iter,
      P2P erfc alpha cutoff Ci Cj Xp mem k =
      if in_cell Ci k
      then P2P_target erfc alpha cutoff Xp mem
             (seq (Cell.BODY Cj) (Cell.NBODY Cj)) (mem k)
      else mem k)
  /\ (0 < length2 dX < cutoff * cutoff ->
      Body.TRG Bi' =
      mkvec4
        (w0 (Body.TRG Bi) + p2p_potential erfc alpha (Body.SRC Bj) r)
        (w1 (Body.TRG Bi) - v0 dX * p2p_dtmp erfc alpha (Body.SRC Bj) r)
        (w2 (Body.TRG Bi) - v1 dX * p2p_dtmp erfc alpha (Body.SRC Bj) r)
        (w3 (Body.TRG Bi) - v2 dX * p2p_dtmp erfc alpha (Body.SRC Bj) r))
  /\ (length2 dX = 0 \/ cutoff * cutoff <= length2 dX -> Bi' = Bi)
  /\ (Body.SRC Bj <> 0 ->
      (Body.TRG Bi' <> Body.TRG Bi <-> 0 < length2 dX < cutoff * cutoff))
  /\ (Body.X Bi' = Body.X Bi
      /\ Body.SRC Bi' = Body.SRC Bi
      /\ Body.IBODY Bi' = Body.IBODY Bi
      /\ Body.ICELL Bi' = Body.ICELL Bi
      /\ Body.WEIGHT Bi' = Body.WEIGHT Bi).
Proof.
  intros Ha. simpl.
  split; [intros k; apply P2P_cells|].
  split.
  { intros Hin.
    pose proof (P2P_increment_spec Bi Bj Xp Ha Hin) as Hinc.
    simpl in Hinc. unfold P2P_increment, vec4_sub in Hinc.
    injection Hinc as E0 E1 E2 E3.
    destruct (Body.TRG (P2P_pair erfc alpha cutoff Bi Bj Xp))
      as [t0 t1 t2 t3].
    simpl in *. f_equal; lra. }
  split.
  { intros Hout. apply P2P_pair_skip. intros [H1 H2].
    destruct Hout as [Hz|Hge]; lra. }
  split.
  { intros Hq. split.
    - intros Hne.
      destruct (Rlt_dec 0 (length2 (separation Bi Bj Xp))) as [H1|H1];
        destruct (Rlt_dec (length2 (separation Bi Bj Xp)) (cutoff * cutoff))
          as [H2|H2];
        try (split; assumption);
        exfalso; apply Hne; rewrite P2P_pair_skip; try reflexivity;
          intros [H3 H4]; contradiction.
    - intros Hin. apply P2P_pair_nonzero; try assumption. lra. }
  apply P2P_pair_fields.
Qed.

(** C7 (as amended): for two bodies [i] and [j] with no periodic offset and
    [0 < R^2 < cutoff^2], the potential the kernel gives the target is that
    of the specification for the separation [R] and the strength of the
    source alone; the force increments of the two directions, each weighted
    by the strength of its target, are exact negations of each other, and
    so are the increments themselves when the two strengths are equal, the
    two potentials being equal then. *)
Theorem P2P_pair_symmetry (Bi Bj : Body.t) :
  0 < alpha ->
  0 < length2 (separation Bi Bj vec3_zero) < cutoff * cutoff ->
  let r := sqrt (length2 (separation Bi Bj vec3_zero)) in
  let Ii := P2P_increment erfc alpha cutoff Bi Bj vec3_zero in
  let Ij := P2P_increment erfc alpha cutoff Bj Bi vec3_zero in
  w0 Ii = p2p_potential erfc alpha (Body.SRC Bj) r
  /\ w0 Ij = p2p_potential erfc alpha (Body.SRC Bi) r
  /\ Body.SRC Bi * w0 Ii = Body.SRC Bj * w0 Ij
  /\ Body.SRC Bi * w1 Ii = - (Body.SRC Bj * w1 Ij)
  /\ Body.SRC Bi * w2 Ii = - (Body.SRC Bj * w2 Ij)
  /\ Body.SRC Bi * w3 Ii = - (Body.SRC Bj * w3 Ij)
  /\ (Body.SRC Bi = Body.SRC Bj ->
      w0 Ii = w0 Ij /\ w1 Ii = - w1 Ij /\ w2 Ii = - w2 Ij /\ w3 Ii = - w3 Ij).
Proof.
  intros Ha Hin. cbv zeta.
  assert (Hin' : 0 < length2 (separation Bj Bi vec3_zero) < cutoff * cutoff)
    by (rewrite length2_swap; exact Hin).
  pose proof (P2P_increment_spec Bi Bj vec3_zero Ha Hin) as Hi.
  pose proof (P2P_increment_spec Bj Bi vec3_zero Ha Hin') as Hj.
  cbv zeta in Hi, Hj. rewrite Hi, Hj.
  rewrite (length2_swap Bi Bj).
  set (r := sqrt (length2 (separation Bi Bj vec3_zero))).
  unfold p2p_potential, p2p_dtmp, Rdiv. simpl.
  repeat split; try ring.
  all: match goal with E : Body.SRC _ = Body.SRC _ |- _ => rewrite E end;
    ring.
Qed.

End RealSpaceKernel.

(** ** Properties of the traversal *)

Section Traversal.

Variable erfc : real_t -> real_t.
Variable alpha cutoff : real_t.
Variable cycle : vec3.
Variable wrap : vec3 -> vec3 -> vec3.

Local Abbreviation Neighbor' := (Neighbor erfc alpha cutoff cycle wrap).
Local Abbreviation realPart' := (realPart erfc alpha cutoff cycle wrap).
Local Abbreviation run' := (run_calls erfc alpha cutoff).
Local Abbreviation walk' := (walk cutoff cycle wrap).
Local Abbreviation walk_children' := (walk_children cutoff cycle wrap).
Local Abbreviation real_walk' := (real_walk cutoff cycle wrap).

Lemma close_gap (Ci Cj : Cell.t) :
  close cutoff cycle wrap Ci Cj = true <-> gap cycle wrap Ci Cj < sqrt 3 * cutoff.
Proof.
  unfold close, gap. rewrite norm_length2. apply Rltb_true.
Qed.

Lemma close_not_gap (Ci Cj : Cell.t) :
  close cutoff cycle wrap Ci Cj = false <->
  ~ gap cycle wrap Ci Cj < sqrt 3 * cutoff.
Proof.
  unfold close, gap. rewrite norm_length2. apply Rltb_false.
Qed.

Lemma run_calls_app (cs1 cs2 : list (Cell.t * Cell.t * vec3)) (st : State) :
  run' (cs1 ++ cs2) st = run' cs2 (run' cs1 st).
Proof. unfold run_calls. apply fold_left_app. Qed.

(** The three cases of one step of the functor. *)
Lemma Neighbor_pruned (fuel : nat) (jcells : Cells) (Ci Cj : Cell.t)
  (j : C_iter) (st : State) :
  nth_error jcells j = Some Cj ->
  ~ gap cycle wrap Ci Cj < sqrt 3 * cutoff ->
  Neighbor' (S fuel) jcells Ci j st = Ok st.
Proof.
  intros Hj Hgap. simpl. rewrite Hj.
  apply close_not_gap in Hgap. now rewrite Hgap.
Qed.

Lemma Neighbor_leaf (fuel : nat) (jcells : Cells) (Ci Cj : Cell.t)
  (j : C_iter) (st : State) :
  nth_error jcells j = Some Cj ->
  gap cycle wrap Ci Cj < sqrt 3 * cutoff ->
  Cell.NCHILD Cj = 0%nat ->
  Neighbor' (S fuel) jcells Ci j st =
  Ok (P2P_call erfc alpha cutoff Ci Cj (periodic_offset cycle wrap Ci Cj) st).
Proof.
  intros Hj Hgap Hleaf. simpl. rewrite Hj.
  apply close_gap in Hgap. rewrite Hgap, Hleaf. reflexivity.
Qed.

Lemma Neighbor_node (fuel : nat) (jcells : Cells) (Ci Cj : Cell.t)
  (j : C_iter) (st : State) :
  nth_error jcells j = Some Cj ->
  gap cycle wrap Ci Cj < sqrt 3 * cutoff ->
  Cell.NCHILD Cj <> 0%nat ->
  Neighbor' (S fuel) jcells Ci j st =
  for_each (seq (Cell.ICHILD Cj) (Cell.NCHILD Cj))
           (fun CC => Neighbor' fuel jcells Ci CC) st.
Proof.
  intros Hj Hgap Hnode. simpl. rewrite Hj.
  apply close_gap in Hgap. rewrite Hgap.
  apply Nat.eqb_neq in Hnode. rewrite Hnode. reflexivity.
Qed.

(** A loop whose passes follow the specification follows it as a whole. *)
Lemma for_each_walk (jcells : Cells) (Ci : Cell.t)
  (body : C_iter -> State -> result State) (l : list C_iter) :
  (forall (c : C_iter) (st st' : State),
      In c l -> body c st = Ok st' ->
      exists cs, walk' jcells Ci c cs /\ st' = run' cs st) ->
  forall st st' : State,
    for_each l body st = Ok st' ->
    exists cs, walk_children' jcells Ci l cs /\ st' = run' cs st.
Proof.
  induction l as [|c l IH]; intros Hbody st st' Hrun; simpl in Hrun.
  - injection Hrun as <-. exists []. split; [constructor|reflexivity].
  - destruct (body c st) as [st1|e] eqn:E1; [|discriminate].
    destruct (Hbody c st st1 (or_introl eq_refl) E1) as [cs1 [W1 ->]].
    destruct (IH (fun c0 s s' H => Hbody c0 s s' (or_intror H)) _ _ Hrun)
      as [cs2 [W2 ->]].
    exists (cs1 ++ cs2). split; [now constructor|].
    now rewrite run_calls_app.
Qed.

(** Every run of the functor that returns made the calls of a walk. *)
Lemma Neighbor_walk (jcells : Cells) (Ci : Cell.t) (fuel : nat) :
  forall (j : C_iter) (st st' : State),
    Neighbor' fuel jcells Ci j st = Ok st' ->
    exists cs, walk' jcells Ci j cs /\ st' = run' cs st.
Proof.
  induction fuel as [|fuel IH]; intros j st st' Hrun; [discriminate|].
  simpl in Hrun.
  destruct (nth_error jcells j) as [Cj|] eqn:Hj; [|discriminate].
  destruct (close cutoff cycle wrap Ci Cj) eqn:Hc.
  - apply close_gap in Hc.
    destruct (Nat.eqb_spec (Cell.NCHILD Cj) 0) as [Hleaf|Hnode].
    + rewrite Hleaf in Hrun. simpl in Hrun. injection Hrun as <-.
      exists [(Ci, Cj, periodic_offset cycle wrap Ci Cj)].
      split; [now apply walk_leaf|reflexivity].
    + apply for_each_walk with (jcells := jcells) (Ci := Ci) in Hrun.
      * destruct Hrun as [cs [W ->]]. exists cs.
        split; [|reflexivity]. now apply walk_node with (Cj := Cj).
      * intros c s s' _ Hs. now apply IH.
  - apply close_not_gap in Hc. injection Hrun as <-.
    exists []. split; [|reflexivity]. now apply walk_pruned with (Cj := Cj).
Qed.

Lemma for_each_total {A S : Type} (body : A -> S -> result S) (l : list A) :
  (forall (a : A) (st : S), In a l -> exists st', body a st = Ok st') ->
  forall st : S, exists st', for_each l body st = Ok st'.
Proof.
  induction l as [|a l IH]; intros Hbody st; simpl.
  - now exists st.
  - destruct (Hbody a st (or_introl eq_refl)) as [st1 ->].
    apply IH. intros a0 s H. apply Hbody. now right.
Qed.

(** On a well-formed tree the functor returns, given as much fuel as there
    are cells from [j] on. *)
Lemma Neighbor_total (jcells : Cells) (Ci : Cell.t) :
  wf_tree jcells ->
  forall (fuel : nat) (j : C_iter) (st : State),
    (j < length jcells)%nat ->
    (length jcells - j <= fuel)%nat ->
    exists st', Neighbor' fuel jcells Ci j st = Ok st'.
Proof.
  intros Hwf. induction fuel as [|fuel IH]; intros j st Hj Hfuel; [lia|].
  simpl.
  destruct (nth_error jcells j) as [Cj|] eqn:E.
  2: { apply nth_error_None in E. lia. }
  destruct (close cutoff cycle wrap Ci Cj); [|now exists st].
  apply for_each_total. intros c s Hc. apply in_seq in Hc.
  destruct (Nat.eq_dec (Cell.NCHILD Cj) 0) as [Hz|Hnz]; [lia|].
  destruct (Hwf j Cj E Hnz) as [Hlt Hle].
  apply IH; lia.
Qed.

(** The walk of the specification is a function of the tree and of the
    target. *)
Lemma walk_functional (jcells : Cells) (Ci : Cell.t) (j : C_iter)
  (cs : list (Cell.t * Cell.t * vec3)) :
  walk' jcells Ci j cs ->
  forall cs', walk' jcells Ci j cs' -> cs = cs'.
Proof.
  intros W.
  induction W using walk_min
    with (P0 := fun l cs =>
                  forall cs', walk_children' jcells Ci l cs' -> cs = cs').
  - intros cs' W'. inversion W'; subst; try reflexivity;
      match goal with
      | H1 : nth_error jcells ?j = Some ?a,
        H2 : nth_error jcells ?j = Some ?b |- _ =>
          rewrite H1 in H2; injection H2 as <-; contradiction
      end.
  - intros cs' W'. inversion W'; subst;
      match goal with
      | H1 : nth_error jcells ?j = Some ?a,
        H2 : nth_error jcells ?j = Some ?b |- _ =>
          rewrite H1 in H2; injection H2 as <-
      end; try reflexivity; contradiction.
  - intros cs' W'. inversion W'; subst;
      match goal with
      | H1 : nth_error jcells ?j = Some ?a,
        H2 : nth_error jcells ?j = Some ?b |- _ =>
          rewrite H1 in H2; injection H2 as <-
      end; try contradiction.
    now apply IHW.
  - intros cs' W'. now inversion W'.
  - intros cs' W'. inversion W'; subst. f_equal; auto.
Qed.

(** A run of the functor that returns does so with the same state, whatever
    the fuel. *)
Lemma Neighbor_fuel_irrelevant (jcells : Cells) (Ci : Cell.t) (j : C_iter)
  (fuel1 fuel2 : nat) (st st1 st2 : State) :
  Neighbor' fuel1 jcells Ci j st = Ok st1 ->
  Neighbor' fuel2 jcells Ci j st = Ok st2 ->
  st1 = st2.
Proof.
  intros E1 E2.
  destruct (Neighbor_walk jcells Ci _ _ _ _ E1) as [cs1 [W1 ->]].
  destruct (Neighbor_walk jcells Ci _ _ _ _ E2) as [cs2 [W2 ->]].
  now rewrite (walk_functional jcells Ci j cs1 W1 cs2 W2).
Qed.

Lemma realPart_walk (cells jcells : Cells) :
  wf_tree jcells ->
  (0 < length jcells)%nat ->
  forall st : State,
  exists (st' : State) (cs : list (Cell.t * Cell.t * vec3)),
    realPart' (length jcells) cells jcells st = Ok st'
    /\ real_walk' jcells cells cs
    /\ st' = run' cs st.
Proof.
  intros Hwf Hlen. unfold realPart.
  induction cells as [|Ci cells IH]; intros st; simpl.
  - exists st, []. repeat split. constructor.
  - destruct (Nat.eqb_spec (Cell.NCHILD Ci) 0) as [Hleaf|Hnode].
    + destruct (Neighbor_total jcells Ci Hwf (length jcells) 0%nat st Hlen)
        as [st1 E1]; [lia|].
      rewrite E1.
      destruct (Neighbor_walk jcells Ci _ _ _ _ E1) as [cs1 [W1 ->]].
      destruct (IH (run' cs1 st)) as [st' [cs2 [E2 [W2 ->]]]].
      exists (run' cs2 (run' cs1 st)), (cs1 ++ cs2).
      split; [exact E2|]. split; [now constructor|].
      now rewrite run_calls_app.
    + destruct (IH st) as [st' [cs [E [W ->]]]].
      exists (run' cs st), cs.
      split; [exact E|]. split; [now constructor|reflexivity].
Qed.

(** C6: for a source cell [Cj] of the tree and a target [Ci]: when the gap
    between the two cells is not below [sqrt(3) cutoff], the functor returns
    at once, the state as it was (no kernel call for the cell, none for a
    descendant); when the gap is below it and [Cj] is a leaf, it makes
    exactly one kernel call, for [Ci] and [Cj] with the periodic offset of
    the wrap; when the gap is below it and [Cj] has children, it runs the
    functor on each child, in order, for the same target.  On a well-formed
    tree the functor returns, having made the calls of the walk of the
    specification, and [realPart] returns, having made one such walk from
    the root for each leaf of the target cells and none for an internal
    target cell. *)
Theorem Neighbor_traversal (cells jcells : Cells) (Ci Cj : Cell.t)
  (j : C_iter) (fuel : nat) (st : State) :
  nth_error jcells j = Some Cj ->
  (~ gap cycle wrap Ci Cj < sqrt 3 * cutoff ->
   Neighbor' (S fuel) jcells Ci j st = Ok st)
  /\ (gap cycle wrap Ci Cj < sqrt 3 * cutoff ->
      Cell.NCHILD Cj = 0%nat ->
      exists st' : State,
        Neighbor' (S fuel) jcells Ci j st = Ok st'
        /\ calls st' = calls st ++ [(Ci, Cj, periodic_offset cycle wrap Ci Cj)]
        /\ mem st' =
           P2P erfc alpha cutoff Ci Cj (periodic_offset cycle wrap Ci Cj)
               (mem st)
        /\ periodic_offset cycle wrap Ci Cj =
           vec3_sub (vec3_sub (Cell.X Ci) (Cell.X Cj))
                    (wrap (vec3_sub (Cell.X Ci) (Cell.X Cj)) cycle))
  /\ (gap cycle wrap Ci Cj < sqrt 3 * cutoff ->
      Cell.NCHILD Cj <> 0%nat ->
      Neighbor' (S fuel) jcells Ci j st =
      for_each (seq (Cell.ICHILD Cj) (Cell.NCHILD Cj))
               (fun CC => Neighbor' fuel jcells Ci CC) st)
  /\ (wf_tree jcells ->
      (exists (st' : State) (cs : list (Cell.t * Cell.t * vec3)),
          Neighbor' (length jcells) jcells Ci j st = Ok st'
          /\ walk' jcells Ci j cs
          /\ (forall cs', walk' jcells Ci j cs' -> cs' = cs)
          /\ st' = run' cs st)
      /\ (exists (st' : State) (cs : list (Cell.t * Cell.t * vec3)),
             realPart' (length jcells) cells jcells st = Ok st'
             /\ real_walk' jcells cells cs
             /\ st' = run' cs st)).
Proof.
  intros Hj.
  assert (Hlt : (j < length jcells)%nat).
  { apply nth_error_Some. rewrite Hj. discriminate. }
  split; [now apply Neighbor_pruned|].
  split.
  { intros Hgap Hleaf.
    exists (P2P_call erfc alpha cutoff Ci Cj
              (periodic_offset cycle wrap Ci Cj) st).
    split; [now apply Neighbor_leaf|]. repeat split. }
  split; [now apply Neighbor_node|].
  intros Hwf. split.
  { destruct (Neighbor_total jcells Ci Hwf (length jcells) j st Hlt)
      as [st' E]; [lia|].
    destruct (Neighbor_walk jcells Ci _ _ _ _ E) as [cs [W ->]].
    exists (run' cs st), cs.
    split; [exact E|]. split; [exact W|]. split; [|reflexivity].
    intros cs' W'. symmetry. now apply (walk_functional jcells Ci j cs W). }
  apply realPart_walk; [exact Hwf|lia].
Qed.

End Traversal.

(** ** Instances *)

Lemma initWaves_half_lattice_witness :
  (0 <= 2)%Z /\ (3 * (2 * 2) <= INT_MAX)%Z
  /\ In (wave_of 1 (-1) 1) (initWaves 2).
Proof.
  assert (H0 : (0 <= 2)%Z) by lia.
  assert (H1 : (3 * (2 * 2) <= INT_MAX)%Z) by (unfold INT_MAX; lia).
  split; [exact H0|]. split; [exact H1|].
  apply (proj1 (initWaves_half_lattice 2 H0 H1)).
  exists 1%Z, (-1)%Z, 1%Z. split; [reflexivity|].
  unfold half_lattice. repeat split; try lia. discriminate.
Defined.

Lemma dft_amplitudes_witness :
  (Z.of_nat (length [wave_of 0 0 1]) <= INT_MAX)%Z
  /\ dft (mkvec3 1 1 1) [wave_of 0 0 1] unit_source 1 =
     map (fun W =>
            Wave.mk (Wave.K W)
              (Rsum (map (fun b =>
                            w3 (unit_source b)
                            * cos (theta (mkvec3 1 1 1) (Wave.K W)
                                     (unit_source b)))
                         (seq 0 (Z.to_nat 1))))
              (Rsum (map (fun b =>
                            w3 (unit_source b)
                            * sin (theta (mkvec3 1 1 1) (Wave.K W)
                                     (unit_source b)))
                         (seq 0 (Z.to_nat 1)))))
         [wave_of 0 0 1].
Proof.
  assert (H : (Z.of_nat (length [wave_of 0 0 1]) <= INT_MAX)%Z)
    by (simpl; unfold INT_MAX; lia).
  split; [exact H|].
  exact (dft_amplitudes (mkvec3 1 1 1) [wave_of 0 0 1] unit_source 1 H).
Defined.

(** With [INT_MAX + 1] waves the converted size [int(waves.size())] is
    negative: the loop of [dft] visits no wave, and every amplitude stays
    0 where the sum over the one body is 1. *)
Lemma dft_more_than_INT_MAX_waves :
  Z.of_nat (length many_waves) = 2147483648%Z
  /\ dft (mkvec3 1 1 1) many_waves unit_source 1 = many_waves
  /\ (forall W : Wave.t, In W many_waves -> Wave.REAL W = 0)
  /\ (forall W : Wave.t,
         In W many_waves ->
         Rsum (map (fun b =>
                      w3 (unit_source b)
                      * cos (theta (mkvec3 1 1 1) (Wave.K W) (unit_source b)))
                   (seq 0 (Z.to_nat 1))) = 1).
Proof.
  assert (Hlen : Z.of_nat (length many_waves) = 2147483648%Z).
  { unfold many_waves. rewrite repeat_length. apply Z2Nat.id. lia. }
  split; [exact Hlen|]. split.
  { unfold dft. rewrite Hlen.
    replace (int_wrap 2147483648) with (-2147483648)%Z by reflexivity.
    change (Z.to_nat (-2147483648)) with 0%nat.
    rewrite firstn_O, skipn_O. reflexivity. }
  assert (Hin : forall W : Wave.t, In W many_waves -> W = wave_of 0 0 1).
  { unfold many_waves. intros W. apply repeat_spec. }
  split.
  { intros W HW. rewrite (Hin W HW). reflexivity. }
  intros W HW. rewrite (Hin W HW).
  change (seq 0 (Z.to_nat 1)) with [0%nat].
  unfold Rsum, unit_source, theta, wave_of. simpl.
  replace (0 * 0 * (2 * PI / 1) + 0 * 0 * (2 * PI / 1) + 1 * 0 * (2 * PI / 1))
    with 0 by (unfold Rdiv; ring).
  rewrite cos_0. ring.
Qed.

Lemma wavePart_filter_factor_witness :
  K2_spec (mkvec3 1 1 1) (Wave.K (wave_of 0 0 1)) <> 0.
Proof.
  assert (H : v0 (mkvec3 1 1 1) <> 0) by (simpl; lra).
  apply (proj2 (proj2 (wavePart_filter_factor 1 1 (mkvec3 1 1 1) 1
                         (fun _ => vec4_zero) (fun _ => vec4_zero) 0 H H H))).
  rewrite dft_within_int
    by (rewrite initWaves_1; simpl; unfold INT_MAX; lia).
  rewrite initWaves_1. simpl. left. reflexivity.
Defined.

Lemma P2P_kernel_witness :
  0 < 1
  /\ Body.TRG (P2P_pair erfc_example 1 2 (body_at 1 0 0 1) (body_at 0 0 0 1)
                 vec3_zero)
     <> Body.TRG (body_at 1 0 0 1).
Proof.
  assert (Ha : 0 < 1) by lra.
  split; [exact Ha|].
  pose proof (P2P_kernel erfc_example 1 2 leaf_example leaf_example vec3_zero
                (fun _ => body_at 0 0 0 1)
                (body_at 1 0 0 1) (body_at 0 0 0 1) Ha) as H.
  cbv zeta in H. destruct H as [_ [_ [_ [H _]]]].
  apply H.
  - simpl. lra.
  - unfold length2, separation. simpl. lra.
Defined.

(** The kernel of the specification at distance 1, for [alpha = 1]. *)
Lemma p2p_unit (erfc : R -> R) (q : R) :
  p2p_potential erfc 1 q 1 = q * erfc 1
  /\ p2p_dtmp erfc 1 q 1 = q * (2 / sqrt PI * exp (- 1) + erfc 1).
Proof.
  unfold p2p_potential, p2p_dtmp.
  rewrite !Rmult_1_r, !pow1.
  replace (- (1)) with (-1) by lra.
  assert (Hpi : sqrt PI <> 0).
  { apply Rgt_not_eq. apply sqrt_lt_R0. apply PI_RGT_0. }
  split; field; try exact Hpi.
Qed.

(** A source of strength zero inside the cutoff: the pass is taken and the
    target is as it was, whatever [erfc] is. *)
Lemma P2P_zero_source_inside_cutoff :
  0 < length2 (separation (body_at 1 0 0 1) (body_at 0 0 0 0) vec3_zero) < 2 * 2
  /\ (forall erfc : R -> R,
         P2P_pair erfc 1 2 (body_at 1 0 0 1) (body_at 0 0 0 0) vec3_zero
         = body_at 1 0 0 1).
Proof.
  assert (Hin : 0 < length2 (separation (body_at 1 0 0 1) (body_at 0 0 0 0)
                               vec3_zero) < 2 * 2).
  { unfold length2, separation. simpl. lra. }
  split; [exact Hin|].
  intros erfc. rewrite (P2P_pair_take erfc 1 2 _ _ _ Hin).
  unfold body_at, Body.set_TRG, vec4_zero. simpl.
  f_equal. f_equal; ring.
Qed.

Lemma P2P_pair_symmetry_witness :
  0 < 1
  /\ 0 < length2 (separation (body_at 1 0 0 1) (body_at 0 0 0 2) vec3_zero)
     < 2 * 2
  /\ Body.SRC (body_at 1 0 0 1)
     * w1 (P2P_increment erfc_example 1 2 (body_at 1 0 0 1) (body_at 0 0 0 2)
             vec3_zero)
     = - (Body.SRC (body_at 0 0 0 2)
          * w1 (P2P_increment erfc_example 1 2 (body_at 0 0 0 2)
                  (body_at 1 0 0 1) vec3_zero)).
Proof.
  assert (Ha : 0 < 1) by lra.
  assert (Hin : 0 < length2 (separation (body_at 1 0 0 1) (body_at 0 0 0 2)
                               vec3_zero) < 2 * 2).
  { unfold length2, separation. simpl. lra. }
  split; [exact Ha|]. split; [exact Hin|].
  pose proof (P2P_pair_symmetry erfc_example 1 2
                (body_at 1 0 0 1) (body_at 0 0 0 2) Ha Hin) as H.
  cbv zeta in H. destruct H as [_ [_ [_ [H _]]]]. exact H.
Defined.

(** Two bodies of strengths 1 and 2 at distance 1, inside the cutoff 2:
    whatever [erfc] is, the two potentials differ or the force increments
    are not negations of each other. *)
Lemma P2P_unequal_strengths :
  0 < length2 (separation (body_at 1 0 0 1) (body_at 0 0 0 2) vec3_zero) < 2 * 2
  /\ (forall erfc : R -> R,
         w0 (P2P_increment erfc 1 2 (body_at 1 0 0 1) (body_at 0 0 0 2)
               vec3_zero)
         = w0 (P2P_increment erfc 1 2 (body_at 0 0 0 2) (body_at 1 0 0 1)
                 vec3_zero)
         /\ w1 (P2P_increment erfc 1 2 (body_at 1 0 0 1) (body_at 0 0 0 2)
                  vec3_zero)
            = - w1 (P2P_increment erfc 1 2 (body_at 0 0 0 2) (body_at 1 0 0 1)
                      vec3_zero)
         -> False).
Proof.
  assert (L1 : length2 (separation (body_at 1 0 0 1) (body_at 0 0 0 2)
                          vec3_zero) = 1).
  { unfold length2, separation. simpl. ring. }
  assert (L2 : length2 (separation (body_at 0 0 0 2) (body_at 1 0 0 1)
                          vec3_zero) = 1).
  { unfold length2, separation. simpl. ring. }
  split; [rewrite L1; lra|].
  intros erfc [Hpot Hforce].
  assert (Ha : 0 < 1) by lra.
  pose proof (P2P_increment_spec erfc 1 2 (body_at 1 0 0 1) (body_at 0 0 0 2)
                vec3_zero Ha) as Hi.
  pose proof (P2P_increment_spec erfc 1 2 (body_at 0 0 0 2) (body_at 1 0 0 1)
                vec3_zero Ha) as Hj.
  cbv zeta in Hi, Hj. rewrite L1 in Hi. rewrite L2 in Hj.
  rewrite Hi in Hpot, Hforce by lra. rewrite Hj in Hpot, Hforce by lra.
  rewrite sqrt_1 in Hpot, Hforce.
  simpl Body.SRC in Hpot, Hforce.
  destruct (p2p_unit erfc 2) as [P2 D2]. destruct (p2p_unit erfc 1) as [P1 D1].
  rewrite P1, P2 in Hpot. rewrite D1, D2 in Hforce.
  cbn [w0] in Hpot.
  unfold separation in Hforce. simpl in Hforce.
  clear Hi Hj L1 L2 P1 P2 D1 D2.
  assert (HG : 0 < 2 / sqrt PI * exp (- 1)).
  { apply Rmult_lt_0_compat; [|apply exp_pos].
    apply Rdiv_lt_0_compat; [lra|]. apply sqrt_lt_R0. apply PI_RGT_0. }
  remember (2 / sqrt PI * exp (- 1)) as G eqn:EG.
  remember (erfc 1) as e eqn:Ee.
  clear EG Ee. lra.
Qed.

Lemma wf_tree_example : wf_tree tree_example.
Proof.
  intros j Cj Hj Hnz.
  destruct j as [|[|[|j]]]; simpl in Hj.
  - injection Hj as <-. simpl. lia.
  - injection Hj as <-. simpl in Hnz. contradiction.
  - injection Hj as <-. simpl in Hnz. contradiction.
  - destruct j; discriminate.
Qed.

Lemma Neighbor_traversal_witness :
  nth_error tree_example 0 = Some root_example
  /\ wf_tree tree_example
  /\ exists (st' : State) (cs : list (Cell.t * Cell.t * vec3)),
       realPart erfc_example 1 1 (mkvec3 1 1 1) (fun dX _ => dX)
                (length tree_example) [leaf_example; root_example]
                tree_example state_example = Ok st'
       /\ real_walk 1 (mkvec3 1 1 1) (fun dX _ => dX) tree_example
                    [leaf_example; root_example] cs
       /\ st' = run_calls erfc_example 1 1 cs state_example.
Proof.
  split; [reflexivity|]. split; [exact wf_tree_example|].
  apply (proj2 (proj2 (proj2
           (Neighbor_traversal erfc_example 1 1 (mkvec3 1 1 1) (fun dX _ => dX)
              [leaf_example; root_example] tree_example
              leaf_example root_example
              0%nat 0%nat state_example eq_refl)))
           wf_tree_example).
Defined.

Lemma dipoleCorrection_binary64_division_witness :
  F64.dipoleCorrection_chk [F64.unit_body] F64.unit_dipole 2 F64.unit_box
  = Some (F64.dipoleCorrection [F64.unit_body] F64.unit_dipole 2
            F64.unit_box)
  /\ F64.dipoleCorrection_chk [F64.unit_body; F64.null_body] F64.unit_dipole
       2 F64.unit_box
     = None.
Proof.
  assert (HV : PrimFloat.is_zero (F64.coef_divisor F64.unit_box) = false)
    by reflexivity.
  assert (Hn : 2%Z <> 0%Z) by discriminate.
  assert (Hr : (- 2 ^ 31 <= 2 < 2 ^ 31)%Z) by lia.
  split.
  - apply (proj1 (dipoleCorrection_binary64_division [F64.unit_body]
                    F64.unit_dipole 2 F64.unit_box Hn Hr HV)).
    constructor; [reflexivity|constructor].
  - apply (proj1 (proj2 (dipoleCorrection_binary64_division
                           [F64.unit_body; F64.null_body] F64.unit_dipole 2
                           F64.unit_box Hn Hr HV))).
    apply Exists_cons_tl. apply Exists_cons_hd. reflexivity.
Defined.

(** * Further properties of the code *)

(** ** initWaves: no repetition, one wave of every conjugate pair *)

Section InitWavesMore.

Lemma NoDup_map_injective {A B : Type} (f : A -> B) (l : list A) :
  (forall x y : A, In x l -> In y l -> f x = f y -> x = y) ->
  NoDup l -> NoDup (map f l).
Proof.
  intros Hinj Hnd. induction Hnd as [|a l Hni Hnd IH]; simpl; constructor.
  - rewrite in_map_iff. intros [y [Hy Hin]].
    assert (y = a) by (apply Hinj; simpl; auto).
    subst y. contradiction.
  - apply IH. intros x y Hx Hy. apply Hinj; now right.
Qed.

Lemma NoDup_flat_map {A B : Type} (f : A -> list B) (l : list A) :
  NoDup l ->
  (forall a : A, In a l -> NoDup (f a)) ->
  (forall (a a' : A) (b : B),
      In a l -> In a' l -> In b (f a) -> In b (f a') -> a = a') ->
  NoDup (flat_map f l).
Proof.
  intros Hnd. induction Hnd as [|a l Hni Hnd IH]; intros Hf Hdisj; simpl.
  - constructor.
  - apply NoDup_app.
    + apply Hf. now left.
    + apply IH.
      * intros a0 H0. apply Hf. now right.
      * intros a0 a' b H0 H1. apply Hdisj; now right.
    + intros b Hb Hb'. apply in_flat_map in Hb'.
      destruct Hb' as [a' [Ha' Hb']].
      assert (a = a') by (apply (Hdisj a a' b); simpl; auto).
      subst a'. contradiction.
Qed.

Lemma int_range_NoDup (lo hi : Z) : NoDup (int_range lo hi).
Proof.
  unfold int_range. apply NoDup_map_injective; [|apply seq_NoDup].
  intros x y _ _ H. lia.
Qed.

Lemma initWaves_shape (ksize : Z) (w : Wave.t) :
  In w (initWaves ksize) -> w = Wave.mk (Wave.K w) 0 0.
Proof.
  intros Hw. apply initWaves_In in Hw.
  destruct Hw as [l [m [n [-> _]]]]. reflexivity.
Qed.

Lemma initWaves_NoDup_waves (ksize : Z) : NoDup (initWaves ksize).
Proof.
  unfold initWaves.
  apply NoDup_flat_map; [apply int_range_NoDup| |].
  - intros l _. apply NoDup_flat_map; [apply int_range_NoDup| |].
    + intros m _. apply NoDup_flat_map; [apply int_range_NoDup| |].
      * intros n _. destruct (Rleb _ _); repeat constructor. intros [].
      * intros n n' b _ _ Hb Hb'.
        destruct (Rleb _ _); [|destruct Hb].
        destruct (Rleb _ _); [|destruct Hb'].
        destruct Hb as [<-|[]]. destruct Hb' as [Hb'|[]].
        injection Hb' as H. symmetry. now apply eq_IZR.
    + intros m m' b _ _ Hb Hb'.
      apply in_flat_map in Hb. destruct Hb as [n [_ Hb]].
      apply in_flat_map in Hb'. destruct Hb' as [n' [_ Hb']].
      destruct (Rleb _ _); [|destruct Hb].
      destruct (Rleb _ _); [|destruct Hb'].
      destruct Hb as [<-|[]]. destruct Hb' as [Hb'|[]].
      injection Hb' as H _. symmetry. now apply eq_IZR.
  - intros l l' b _ _ Hb Hb'.
    apply in_flat_map in Hb. destruct Hb as [m [_ Hb]].
    apply in_flat_map in Hb. destruct Hb as [n [_ Hb]].
    apply in_flat_map in Hb'. destruct Hb' as [m' [_ Hb']].
    apply in_flat_map in Hb'. destruct Hb' as [n' [_ Hb']].
    destruct (Rleb _ _); [|destruct Hb].
    destruct (Rleb _ _); [|destruct Hb'].
    destruct Hb as [<-|[]]. destruct Hb' as [Hb'|[]].
    injection Hb' as H _ _. symmetry. now apply eq_IZR.
Qed.

(** X1: whatever [ksize] is, [initWaves] generates no wave vector twice. *)
Theorem initWaves_NoDup (ksize : Z) : NoDup (map Wave.K (initWaves ksize)).
Proof.
  apply NoDup_map_injective; [|apply initWaves_NoDup_waves].
  intros x y Hx Hy HK.
  rewrite (initWaves_shape ksize x Hx), (initWaves_shape ksize y Hy).
  now rewrite HK.
Qed.

(** Within the range of the 32-bit arithmetic, the generated waves are those
    of the half lattice. *)
Lemma initWaves_In_half (ksize l m n : Z) :
  (0 <= ksize)%Z ->
  (3 * (ksize * ksize) <= INT_MAX)%Z ->
  In (wave_of l m n) (initWaves ksize) <-> half_lattice ksize l m n.
Proof.
  intros Hk Hmax. unfold INT_MAX in Hmax.
  assert (Hneg : int_neg ksize = (- ksize)%Z).
  { unfold int_neg. apply int_wrap_small. nia. }
  assert (Hsq : forall a : Z,
             (- ksize <= a <= ksize)%Z ->
             int_mul a a = (a * a)%Z /\ (0 <= a * a <= ksize * ksize)%Z).
  { intros a Ha. assert (0 <= a * a <= ksize * ksize)%Z by nia.
    split; [|assumption]. unfold int_mul. apply int_wrap_small. lia. }
  assert (Hsum : forall a b c : Z,
             (- ksize <= a <= ksize)%Z -> (- ksize <= b <= ksize)%Z ->
             (- ksize <= c <= ksize)%Z ->
             int_add (int_add (int_mul a a) (int_mul b b)) (int_mul c c)
             = (a * a + b * b + c * c)%Z).
  { intros a b c Ha Hb Hc.
    destruct (Hsq a Ha) as [-> ?]. destruct (Hsq b Hb) as [-> ?].
    destruct (Hsq c Hc) as [-> ?]. unfold int_add.
    rewrite (int_wrap_small (a * a + b * b)) by lia.
    apply int_wrap_small. lia. }
  rewrite initWaves_In, Hneg. unfold half_lattice. split.
  - intros [l' [m' [n' [Heq [Hl [Hm [Hn Hle]]]]]]].
    apply wave_of_inj in Heq. destruct Heq as [<- [<- <-]].
    assert (Hm' : (- ksize <= m <= ksize)%Z) by (destruct (l =? 0)%Z; lia).
    assert (Hn' : (- ksize <= n <= ksize)%Z)
      by (destruct ((l =? 0)%Z && (m =? 0)%Z); lia).
    rewrite Hsum in Hle by lia.
    destruct (Hsq ksize) as [Ek _]; [lia|]. rewrite Ek in Hle.
    split; [exact Hle|]. split.
    { intros Heq. injection Heq as -> -> ->. simpl in Hn. lia. }
    split; [exact Hl|]. split.
    { intros ->. simpl in Hm. lia. }
    { intros -> ->. simpl in Hn. lia. }
  - intros [Hle [Hnz [Hl [Hm Hn]]]].
    exists l, m, n. split; [reflexivity|].
    assert (Hm' : (- ksize <= m <= ksize)%Z) by nia.
    assert (Hn' : (- ksize <= n <= ksize)%Z) by nia.
    rewrite Hsum by lia.
    destruct (Hsq ksize) as [Ek _]; [lia|]. rewrite Ek.
    split; [exact Hl|]. split.
    { destruct (Z.eqb_spec l 0) as [E|E]; [specialize (Hm E)|]; lia. }
    split; [|exact Hle].
    destruct (Z.eqb_spec l 0) as [E|E]; simpl; [|lia].
    destruct (Z.eqb_spec m 0) as [E'|E']; simpl; [|lia].
    specialize (Hn E E'). lia.
Qed.

(** X2: for [ksize >= 0] within the range of the 32-bit arithmetic, of
    every nonzero integer vector of the ball of radius [ksize] and its
    opposite, [initWaves] generates exactly one. *)
Theorem initWaves_conjugate_pairs (ksize l m n : Z) :
  (0 <= ksize)%Z ->
  (3 * (ksize * ksize) <= INT_MAX)%Z ->
  (l, m, n) <> (0, 0, 0)%Z ->
  (l * l + m * m + n * n <= ksize * ksize)%Z ->
  (In (wave_of l m n) (initWaves ksize)
   /\ ~ In (wave_of (- l) (- m) (- n)) (initWaves ksize))
  \/ (~ In (wave_of l m n) (initWaves ksize)
      /\ In (wave_of (- l) (- m) (- n)) (initWaves ksize)).
Proof.
  intros Hk Hmax Hnz Hball.
  rewrite !(initWaves_In_half ksize) by assumption.
  unfold half_lattice.
  assert (Hl : (- ksize <= l <= ksize)%Z) by nia.
  assert (Hm : (- ksize <= m <= ksize)%Z) by nia.
  assert (Hn : (- ksize <= n <= ksize)%Z) by nia.
  assert (Hopp : (- l * - l + - m * - m + - n * - n
                  = l * l + m * m + n * n)%Z) by ring.
  rewrite Hopp.
  assert (Hnz' : (l <> 0 \/ m <> 0 \/ n <> 0)%Z).
  { destruct (Z.eq_dec l 0) as [->|]; [|now left].
    destruct (Z.eq_dec m 0) as [->|]; [|right; now left].
    right; right. intros ->. now apply Hnz. }
  assert (Hnzo : ((- l, - m, - n) <> (0, 0, 0))%Z).
  { intros Heq. injection Heq as E0 E1 E2. lia. }
  destruct (Z.lt_trichotomy l 0) as [Hlt|[Hz|Hgt]].
  - right. split; [intros H; lia|]. repeat split; try assumption; lia.
  - subst l. destruct (Z.lt_trichotomy m 0) as [Hlt|[Hz|Hgt]].
    + right. split; [intros [_ [_ [_ [H _]]]]; specialize (H eq_refl); lia|].
      repeat split; try assumption; lia.
    + subst m. destruct (Z.lt_trichotomy n 0) as [Hlt|[Hz|Hgt]].
      * right.
        split; [intros [_ [_ [_ [_ H]]]]; specialize (H eq_refl eq_refl); lia|].
        repeat split; try assumption; lia.
      * lia.
      * left. split; [repeat split; try assumption; lia|].
        intros [_ [_ [_ [_ H]]]]. specialize (H eq_refl eq_refl). lia.
    + left. split; [repeat split; try assumption; lia|].
      intros [_ [_ [_ [H _]]]]. specialize (H eq_refl). lia.
  - left. split; [repeat split; try assumption; lia|]. intros H; lia.
Qed.

(** With [ksize <= 0] the loops generate nothing. *)
Lemma initWaves_nonpositive (ksize : Z) : (ksize <= 0)%Z -> initWaves ksize = [].
Proof.
  intros Hk. destruct (Z.eq_dec ksize 0) as [->|Hne].
  - cbv -[Rleb IZR wave_of]. reflexivity.
  - unfold initWaves.
    replace (int_range 0 ksize) with (@nil Z); [reflexivity|].
    unfold int_range. replace (Z.to_nat (ksize + 1 - 0)) with 0%nat by lia.
    reflexivity.
Qed.

End InitWavesMore.

(** ** wavePart: degenerate inputs, linearity in the source strengths *)

Section WavePartMore.

Variable alpha sigma : real_t.
Variable cycle : vec3.

(** [wavePart] on the accumulator of one body. *)
Lemma wavePart_body (ksize : Z) (Ibodies Jbodies : Vec4Mem) (numBodies : Z)
  (b : nat) :
  wavePart ksize alpha sigma cycle Ibodies Jbodies numBodies b =
  if (b <? Z.to_nat numBodies)%nat then
    vec4_add (Ibodies b)
      (idft_body cycle
         (wavePart_filter alpha sigma cycle
            (dft cycle (initWaves ksize) Jbodies numBodies))
         (Jbodies b))
  else Ibodies b.
Proof.
  unfold wavePart, idft.
  rewrite (fold_upd_seq (fun b T => vec4_add T (idft_body cycle _ (Jbodies b)))).
  reflexivity.
Qed.

(** X3: [wavePart] leaves every accumulator as it was when
    [numBodies <= 0] (no body is visited) and, in exact reals with nonzero
    box lengths, when [ksize <= 0] (no wave is generated). *)
Theorem wavePart_degenerate (ksize : Z) (Ibodies Jbodies : Vec4Mem)
  (numBodies : Z) (b : nat) :
  (numBodies <= 0)%Z
  \/ ((ksize <= 0)%Z
      /\ v0 cycle <> 0 /\ v1 cycle <> 0 /\ v2 cycle <> 0) ->
  wavePart ksize alpha sigma cycle Ibodies Jbodies numBodies b = Ibodies b.
Proof.
  intros H. rewrite wavePart_body.
  destruct (Nat.ltb_spec b (Z.to_nat numBodies)) as [Hb|Hb]; [|reflexivity].
  destruct H as [Hn|[Hk [H0 [H1 H2]]]]; [lia|].
  rewrite (initWaves_nonpositive ksize Hk). simpl.
  unfold idft_body, vec4_add. simpl.
  destruct (Ibodies b) as [t0 t1 t2 t3]. simpl. f_equal; ring.
Qed.

Lemma Rsum_scale {A : Type} (c : R) (f : A -> R) (l : list A) :
  Rsum (map (fun x => c * f x) l) = c * Rsum (map f l).
Proof.
  induction l as [|a l IH]; simpl; [ring|]. rewrite IH. ring.
Qed.

Lemma Rsum_ext {A : Type} (f g : A -> R) (l : list A) :
  (forall x : A, f x = g x) -> Rsum (map f l) = Rsum (map g l).
Proof.
  intros H. induction l as [|a l IH]; simpl; [reflexivity|].
  now rewrite H, IH.
Qed.

Lemma theta_scale_sources (c : R) (Jbodies : Vec4Mem) (K : vec3) (b : nat) :
  theta cycle K (scale_sources c Jbodies b) = theta cycle K (Jbodies b).
Proof. reflexivity. Qed.

Lemma dft_scale_sources (c : R) (waves : Waves) (Jbodies : Vec4Mem)
  (numBodies : Z) :
  (forall W : Wave.t, In W waves -> W = Wave.mk (Wave.K W) 0 0) ->
  dft cycle waves (scale_sources c Jbodies) numBodies =
  map (amplitude_scale c) (dft cycle waves Jbodies numBodies).
Proof.
  intros Hzero. unfold dft. rewrite map_app. f_equal.
  - rewrite map_map. apply map_ext. intros W.
    rewrite !dft_wave_sums. unfold amplitude_scale. simpl.
    f_equal.
    + rewrite <- Rsum_scale. apply Rsum_ext. intros x.
      unfold scale_sources, theta. simpl. ring.
    + rewrite <- Rsum_scale. apply Rsum_ext. intros x.
      unfold scale_sources, theta. simpl. ring.
  - rewrite <- (map_id (skipn _ waves)) at 1.
    apply map_ext_in. intros W HW.
    assert (HW' : In W waves).
    { rewrite <- (firstn_skipn
                    (Z.to_nat (int_wrap (Z.of_nat (length waves)))) waves).
      apply in_or_app. now right. }
    specialize (Hzero W HW'). destruct W as [K re im]. simpl in Hzero.
    injection Hzero as -> ->. unfold amplitude_scale. simpl.
    f_equal; ring.
Qed.

Lemma wavePart_filter_scale (c : R) (waves : Waves) :
  wavePart_filter alpha sigma cycle (map (amplitude_scale c) waves) =
  map (amplitude_scale c) (wavePart_filter alpha sigma cycle waves).
Proof.
  unfold wavePart_filter. rewrite !map_map. apply map_ext. intros W.
  unfold amplitude_scale. simpl. f_equal; ring.
Qed.

Lemma idft_body_scale (c : R) (waves : Waves) (J J' : vec4) :
  w0 J' = w0 J -> w1 J' = w1 J -> w2 J' = w2 J ->
  idft_body cycle (map (amplitude_scale c) waves) J' =
  vec4_scale c (idft_body cycle waves J).
Proof.
  intros E0 E1 E2.
  assert (Hth : forall K : vec3, theta cycle K J' = theta cycle K J).
  { intros K. unfold theta. now rewrite E0, E1, E2. }
  assert (Hpot : idft_potential cycle (map (amplitude_scale c) waves) J'
                 = c * idft_potential cycle waves J).
  { unfold idft_potential. rewrite map_map, <- Rsum_scale.
    apply Rsum_ext. intros W. simpl. rewrite Hth. ring. }
  assert (Hsum : forall Kd : vec3 -> R,
             Rsum (map (fun W => idft_dtmp cycle J' W * Kd (Wave.K W))
                       (map (amplitude_scale c) waves))
             = c * Rsum (map (fun W => idft_dtmp cycle J W * Kd (Wave.K W))
                             waves)).
  { intros Kd. rewrite map_map, <- Rsum_scale. apply Rsum_ext. intros W.
    unfold idft_dtmp. simpl. rewrite Hth. ring. }
  rewrite !idft_body_spec. unfold vec4_scale, idft_force. simpl.
  rewrite Hpot, !Hsum. f_equal; ring.
Qed.

(** X4: [wavePart] is linear in the source strengths: with every source
    strength multiplied by [c] and the positions kept, what it adds to the
    accumulator of each body is multiplied by [c]. *)
Theorem wavePart_linear (c : R) (ksize : Z) (Ibodies Jbodies : Vec4Mem)
  (numBodies : Z) (b : nat) :
  vec4_sub
    (wavePart ksize alpha sigma cycle Ibodies (scale_sources c Jbodies)
       numBodies b)
    (Ibodies b)
  = vec4_scale c
      (vec4_sub
         (wavePart ksize alpha sigma cycle Ibodies Jbodies numBodies b)
         (Ibodies b)).
Proof.
  rewrite !wavePart_body.
  destruct (Nat.ltb_spec b (Z.to_nat numBodies)) as [Hb|Hb].
  - rewrite dft_scale_sources by apply initWaves_shape.
    rewrite wavePart_filter_scale.
    rewrite (idft_body_scale c _ (Jbodies b) (scale_sources c Jbodies b))
      by reflexivity.
    unfold vec4_sub, vec4_add, vec4_scale. simpl. f_equal; ring.
  - unfold vec4_sub, vec4_scale. simpl. f_equal; ring.
Qed.

End WavePartMore.

Lemma wavePart_degenerate_witness :
  wavePart 0 1 1 (mkvec3 1 1 1) (fun _ => mkvec4 1 2 3 4)
           (fun _ => mkvec4 0 0 0 1) 5 2%nat
  = mkvec4 1 2 3 4.
Proof.
  apply (wavePart_degenerate 1 1 (mkvec3 1 1 1) 0
           (fun _ => mkvec4 1 2 3 4) (fun _ => mkvec4 0 0 0 1) 5 2%nat).
  right. split; [lia|]. simpl. repeat split; lra.
Defined.

(** ** The real-space kernel: what a pass depends on *)

Section KernelMore.

Variable erfc : real_t -> real_t.
Variable alpha cutoff : real_t.

Local Abbreviation pair' := (P2P_pair erfc alpha cutoff).
Local Abbreviation inc' := (P2P_increment erfc alpha cutoff).
Local Abbreviation target' := (P2P_target erfc alpha cutoff).

(** A pass adds its increment to the accumulator. *)
Lemma P2P_pair_add (Bi Bj : Body.t) (Xp : vec3) :
  pair' Bi Bj Xp = Body.set_TRG Bi (vec4_add (Body.TRG Bi) (inc' Bi Bj Xp)).
Proof.
  unfold P2P_increment, P2P_pair.
  destruct (Rltb 0 _ && Rltb _ _); destruct Bi as [X q [t0 t1 t2 t3] ib ic w];
    unfold Body.set_TRG, vec4_add, vec4_sub; simpl; f_equal; f_equal; ring.
Qed.

(** The increment depends on the position of the target only. *)
Lemma P2P_increment_target (Bi Bi' Bj : Body.t) (Xp : vec3) :
  Body.X Bi = Body.X Bi' -> inc' Bi Bj Xp = inc' Bi' Bj Xp.
Proof.
  intros HX. unfold P2P_increment, P2P_pair. rewrite HX.
  destruct (Rltb 0 _ && Rltb _ _); unfold vec4_sub; simpl; f_equal; ring.
Qed.

Lemma P2P_pair_X (Bi Bj : Body.t) (Xp : vec3) :
  Body.X (pair' Bi Bj Xp) = Body.X Bi.
Proof. apply P2P_pair_fields. Qed.

Lemma P2P_pair_comm (B Bj Bj' : Body.t) (Xp : vec3) :
  pair' (pair' B Bj Xp) Bj' Xp = pair' (pair' B Bj' Xp) Bj Xp.
Proof.
  rewrite (P2P_pair_add (pair' B Bj Xp)), (P2P_pair_add (pair' B Bj' Xp)).
  rewrite (P2P_increment_target (pair' B Bj Xp) B Bj' Xp)
    by apply P2P_pair_X.
  rewrite (P2P_increment_target (pair' B Bj' Xp) B Bj Xp)
    by apply P2P_pair_X.
  rewrite !P2P_pair_add.
  destruct B as [X q [t0 t1 t2 t3] ib ic w].
  unfold Body.set_TRG, vec4_add. simpl. f_equal. f_equal; ring.
Qed.

(** X5: the result of the source loop of [P2P] for a target does not
    depend on the order in which the sources are visited. *)
Theorem P2P_target_permutation (Xp : vec3) (mem : BodyMem)
  (js js' : list B_iter) (B : Body.t) :
  Permutation js js' ->
  target' Xp mem js B = target' Xp mem js' B.
Proof.
  intros Hperm. revert B. unfold P2P_target.
  induction Hperm as [|j l l' _ IH|j j' l|l l' l'' _ IH1 _ IH2]; intros B;
    simpl.
  - reflexivity.
  - apply IH.
  - now rewrite P2P_pair_comm.
  - now rewrite IH1, IH2.
Qed.

Lemma P2P_target_X (Xp : vec3) (mem : BodyMem) (js : list B_iter)
  (B : Body.t) :
  Body.X (target' Xp mem js B) = Body.X B.
Proof.
  revert B. unfold P2P_target. induction js as [|j js IH]; intros B; simpl.
  - reflexivity.
  - rewrite IH. apply P2P_pair_X.
Qed.

(** A source at the position of the target, with no offset, is skipped. *)
Lemma P2P_pair_coincident (Bi Bj : Body.t) :
  Body.X Bi = Body.X Bj -> pair' Bi Bj vec3_zero = Bi.
Proof.
  intros HX. apply P2P_pair_skip. intros [Hpos _].
  unfold length2, separation in Hpos. rewrite HX in Hpos. simpl in Hpos.
  assert (H : (v0 (Body.X Bj) - v0 (Body.X Bj) - 0) ^ 2
              + (v1 (Body.X Bj) - v1 (Body.X Bj) - 0) ^ 2
              + (v2 (Body.X Bj) - v2 (Body.X Bj) - 0) ^ 2 = 0) by ring.
  lra.
Qed.

(** X6: with no periodic offset a body never acts on itself: for the
    target of index [k], the source loop gives the same result with [k]
    taken out of the sources. *)
Theorem P2P_no_self_interaction (mem : BodyMem) (js : list B_iter)
  (k : B_iter) :
  target' vec3_zero mem js (mem k)
  = target' vec3_zero mem (remove Nat.eq_dec k js) (mem k).
Proof.
  assert (H : forall B : Body.t,
             Body.X B = Body.X (mem k) ->
             target' vec3_zero mem js B
             = target' vec3_zero mem (remove Nat.eq_dec k js) B).
  { unfold P2P_target. induction js as [|j js IH]; intros B HX; simpl.
    - reflexivity.
    - destruct (Nat.eq_dec k j) as [<-|Hne].
      + rewrite (P2P_pair_coincident B (mem k) HX). now apply IH.
      + simpl. apply IH. now rewrite P2P_pair_X. }
  now apply H.
Qed.

(** X7: the periodic offset acts as a displacement of the source: a pass
    with the offset [Xp] is the pass with no offset for the source displaced
    by [Xp]. *)
Theorem P2P_offset_is_displacement (Bi Bj : Body.t) (Xp : vec3) :
  pair' Bi Bj Xp = pair' Bi (displace Bj Xp) vec3_zero.
Proof.
  assert (Hsep : vec3_sub (vec3_sub (Body.X Bi) (Body.X Bj)) Xp
                 = vec3_sub (vec3_sub (Body.X Bi) (Body.X (displace Bj Xp)))
                            vec3_zero).
  { unfold vec3_sub, displace, vec3_add, vec3_zero. simpl. f_equal; ring. }
  unfold P2P_pair. rewrite Hsep. reflexivity.
Qed.

End KernelMore.

Lemma P2P_target_permutation_witness :
  P2P_target erfc_example 1 2 vec3_zero (fun k => body_at (INR k) 0 0 1)
             [0%nat; 1%nat] (body_at 0 0 0 1)
  = P2P_target erfc_example 1 2 vec3_zero (fun k => body_at (INR k) 0 0 1)
               [1%nat; 0%nat] (body_at 0 0 0 1).
Proof.
  apply (P2P_target_permutation erfc_example 1 2 vec3_zero
           (fun k => body_at (INR k) 0 0 1) [0%nat; 1%nat] [1%nat; 0%nat]
           (body_at 0 0 0 1)).
  apply perm_swap.
Defined.

(** ** realPart: which calls it makes, what it leaves alone *)

Section RealPartMore.

Variable erfc : real_t -> real_t.
Variable alpha cutoff : real_t.
Variable cycle : vec3.
Variable wrap : vec3 -> vec3 -> vec3.

Local Abbreviation realPart' := (realPart erfc alpha cutoff cycle wrap).
Local Abbreviation run' := (run_calls erfc alpha cutoff).
Local Abbreviation walk' := (walk cutoff cycle wrap).
Local Abbreviation walk_children' := (walk_children cutoff cycle wrap).
Local Abbreviation real_walk' := (real_walk cutoff cycle wrap).

(** Every run of [realPart] that returns made the calls of the
    specification, whatever the fuel and the shape of the tree. *)
Lemma realPart_real_walk (fuel : nat) (cells jcells : Cells) :
  forall st st' : State,
    realPart' fuel cells jcells st = Ok st' ->
    exists cs, real_walk' jcells cells cs /\ st' = run' cs st.
Proof.
  unfold realPart. induction cells as [|Ci cells IH]; intros st st' Hrun;
    simpl in Hrun.
  - injection Hrun as <-. exists []. split; [constructor|reflexivity].
  - destruct (Nat.eqb_spec (Cell.NCHILD Ci) 0) as [Hleaf|Hnode].
    + destruct (Neighbor erfc alpha cutoff cycle wrap fuel jcells Ci 0%nat st)
        as [st1|e] eqn:E1; [|discriminate].
      destruct (Neighbor_walk erfc alpha cutoff cycle wrap jcells Ci
                  _ _ _ _ E1) as [cs1 [W1 ->]].
      destruct (IH _ _ Hrun) as [cs2 [W2 ->]].
      exists (cs1 ++ cs2). split; [now constructor|].
      now rewrite run_calls_app.
    + destruct (IH _ _ Hrun) as [cs [W ->]].
      exists cs. split; [now constructor|reflexivity].
Qed.

(** The calls of a walk: the target is the one of the walk, the source a
    leaf of the tree that passed the test, the offset that of the pair. *)
Lemma walk_calls (jcells : Cells) (Ci : Cell.t) (j : C_iter)
  (cs : list (Cell.t * Cell.t * vec3)) :
  walk' jcells Ci j cs ->
  Forall (fun c =>
            fst (fst c) = Ci
            /\ In (snd (fst c)) jcells
            /\ Cell.NCHILD (snd (fst c)) = 0%nat
            /\ gap cycle wrap Ci (snd (fst c)) < sqrt 3 * cutoff
            /\ snd c = periodic_offset cycle wrap Ci (snd (fst c)))
         cs.
Proof.
  intros W.
  induction W using walk_min
    with (P0 := fun (_ : list C_iter) cs =>
                  Forall (fun c =>
                            fst (fst c) = Ci
                            /\ In (snd (fst c)) jcells
                            /\ Cell.NCHILD (snd (fst c)) = 0%nat
                            /\ gap cycle wrap Ci (snd (fst c))
                               < sqrt 3 * cutoff
                            /\ snd c
                               = periodic_offset cycle wrap Ci (snd (fst c)))
                         cs).
  - constructor.
  - constructor; [|constructor]. simpl.
    repeat split; try assumption. eapply nth_error_In; eassumption.
  - assumption.
  - constructor.
  - apply Forall_app. split; assumption.
Qed.

Lemma run_calls_calls (cs : list (Cell.t * Cell.t * vec3)) (st : State) :
  calls (run' cs st) = calls st ++ cs.
Proof.
  revert st. unfold run_calls. induction cs as [|c cs IH]; intros st; simpl.
  - now rewrite app_nil_r.
  - rewrite IH. unfold P2P_call. simpl. destruct c as [[ci cj] xp]. simpl.
    now rewrite <- app_assoc.
Qed.

(** X8: whenever [realPart] returns, every kernel call it made is for a
    leaf of the target cells and a leaf of the source tree whose gap is
    below [sqrt(3) cutoff], with the periodic offset of that pair of
    cells. *)
Theorem realPart_calls (fuel : nat) (cells jcells : Cells)
  (st st' : State) :
  realPart' fuel cells jcells st = Ok st' ->
  exists cs : list (Cell.t * Cell.t * vec3),
    calls st' = calls st ++ cs
    /\ Forall (fun c =>
                 In (fst (fst c)) cells
                 /\ Cell.NCHILD (fst (fst c)) = 0%nat
                 /\ In (snd (fst c)) jcells
                 /\ Cell.NCHILD (snd (fst c)) = 0%nat
                 /\ gap cycle wrap (fst (fst c)) (snd (fst c))
                    < sqrt 3 * cutoff
                 /\ snd c
                    = periodic_offset cycle wrap (fst (fst c)) (snd (fst c)))
              cs.
Proof.
  intros Hrun.
  destruct (realPart_real_walk fuel cells jcells st st' Hrun) as [cs [W ->]].
  exists cs. split; [apply run_calls_calls|].
  clear Hrun. induction W as [|Ci cells cs1 cs2 Hleaf W1 _ IH|Ci cells cs Hn _ IH].
  - constructor.
  - apply Forall_app. split.
    + apply walk_calls in W1.
      apply Forall_impl with (2 := W1).
      intros [[ci cj] xp]. simpl. intros [-> [Hin [Hl [Hg Hx]]]].
      repeat split; auto.
    + apply Forall_impl with (2 := IH).
      intros c [H1 H2]. split; [now right|exact H2].
  - apply Forall_impl with (2 := IH).
    intros c [H1 H2]. split; [now right|exact H2].
Qed.

(** The kernel leaves every field of every body but the accumulator. *)
Lemma P2P_same_but_TRG (Ci Cj : Cell.t) (Xp : vec3) (m : BodyMem)
  (k : B_iter) :
  same_but_TRG (m k) (P2P erfc alpha cutoff Ci Cj Xp m k).
Proof.
  rewrite P2P_cells. destruct (in_cell Ci k).
  - unfold P2P_target.
    generalize (seq (Cell.BODY Cj) (Cell.NBODY Cj)) as js.
    assert (H : forall (js : list B_iter) (B : Body.t),
               same_but_TRG (m k) B ->
               same_but_TRG (m k)
                 (fold_left
                    (fun B' j => P2P_pair erfc alpha cutoff B' (m j) Xp) js B)).
    { induction js as [|j js IH]; intros B HB; simpl; [exact HB|].
      apply IH. unfold same_but_TRG in *.
      destruct (P2P_pair_fields erfc alpha cutoff B (m j) Xp)
        as [E0 [E1 [E2 [E3 E4]]]].
      rewrite E0, E1, E2, E3, E4. exact HB. }
    intros js. apply H. repeat split.
  - repeat split.
Qed.

Lemma run_calls_frame (cs : list (Cell.t * Cell.t * vec3)) (st : State)
  (k : B_iter) :
  same_but_TRG (mem st k) (mem (run' cs st) k)
  /\ (Forall (fun c => in_cell (fst (fst c)) k = false) cs ->
      mem (run' cs st) k = mem st k).
Proof.
  revert st. unfold run_calls. induction cs as [|c cs IH]; intros st; simpl.
  - split; [repeat split|reflexivity].
  - destruct (IH (P2P_call erfc alpha cutoff (fst (fst c)) (snd (fst c))
                    (snd c) st)) as [Hs Hu].
    split.
    + pose proof (P2P_same_but_TRG (fst (fst c)) (snd (fst c)) (snd c)
                    (mem st) k) as H0.
      simpl in Hs. unfold same_but_TRG in *.
      destruct Hs as [A0 [A1 [A2 [A3 A4]]]].
      destruct H0 as [B0 [B1 [B2 [B3 B4]]]].
      rewrite A0, A1, A2, A3, A4. repeat split; assumption.
    + intros Hall. inversion Hall as [|? ? Hc Hcs]; subst.
      rewrite (Hu Hcs). simpl. rewrite P2P_cells, Hc. reflexivity.
Qed.

(** X9: whenever [realPart] returns, every body has kept its position, its
    source strength and its bookkeeping fields, and a body that is a
    target of no leaf of the target cells has kept its accumulator too. *)
Theorem realPart_frame (fuel : nat) (cells jcells : Cells)
  (st st' : State) (k : B_iter) :
  realPart' fuel cells jcells st = Ok st' ->
  same_but_TRG (mem st k) (mem st' k)
  /\ (no_leaf_target cells k -> mem st' k = mem st k).
Proof.
  intros Hrun.
  destruct (realPart_real_walk fuel cells jcells st st' Hrun) as [cs [W ->]].
  destruct (run_calls_frame cs st k) as [Hs Hu].
  split; [exact Hs|].
  intros Hno. apply Hu.
  clear Hs Hu Hrun.
  induction W as [|Ci cells cs1 cs2 Hleaf W1 _ IH|Ci cells cs Hn _ IH].
  - constructor.
  - apply Forall_app. split.
    + apply walk_calls in W1. apply Forall_impl with (2 := W1).
      intros c [-> _]. apply Hno; [now left|exact Hleaf].
    + apply IH. intros C HC. apply Hno. now right.
  - apply IH. intros C HC. apply Hno. now right.
Qed.

End RealPartMore.

Lemma realPart_calls_witness :
  exists st' : State,
    realPart erfc_example 1 1 (mkvec3 1 1 1) (fun dX _ => dX)
             (length tree_example) [leaf_example; root_example] tree_example
             state_example = Ok st'
    /\ exists cs : list (Cell.t * Cell.t * vec3),
         calls st' = calls state_example ++ cs
         /\ Forall (fun c =>
                      In (fst (fst c)) [leaf_example; root_example]
                      /\ Cell.NCHILD (fst (fst c)) = 0%nat
                      /\ In (snd (fst c)) tree_example
                      /\ Cell.NCHILD (snd (fst c)) = 0%nat
                      /\ gap (mkvec3 1 1 1) (fun dX _ => dX)
                             (fst (fst c)) (snd (fst c))
                         < sqrt 3 * 1
                      /\ snd c
                         = periodic_offset (mkvec3 1 1 1) (fun dX _ => dX)
                             (fst (fst c)) (snd (fst c)))
                   cs.
Proof.
  destruct (realPart_walk erfc_example 1 1 (mkvec3 1 1 1) (fun dX _ => dX)
              [leaf_example; root_example] tree_example wf_tree_example
              (Nat.lt_0_succ 2) state_example) as [st' [cs [E _]]].
  exists st'. split; [exact E|].
  exact (realPart_calls erfc_example 1 1 (mkvec3 1 1 1) (fun dX _ => dX)
           (length tree_example) [leaf_example; root_example] tree_example
           state_example st' E).
Defined.

Lemma realPart_frame_witness :
  exists st' : State,
    realPart erfc_example 1 1 (mkvec3 1 1 1) (fun dX _ => dX)
             (length tree_example) [leaf_example; root_example] tree_example
             state_example = Ok st'
    /\ same_but_TRG (mem state_example 0%nat) (mem st' 0%nat)
    /\ mem st' 7%nat = mem state_example 7%nat.
Proof.
  destruct (realPart_walk erfc_example 1 1 (mkvec3 1 1 1) (fun dX _ => dX)
              [leaf_example; root_example] tree_example wf_tree_example
              (Nat.lt_0_succ 2) state_example) as [st' [cs [E _]]].
  exists st'. split; [exact E|]. split.
  - exact (proj1 (realPart_frame erfc_example 1 1 (mkvec3 1 1 1)
                    (fun dX _ => dX) (length tree_example)
                    [leaf_example; root_example] tree_example
                    state_example st' 0%nat E)).
  - apply (proj2 (realPart_frame erfc_example 1 1 (mkvec3 1 1 1)
                    (fun dX _ => dX) (length tree_example)
                    [leaf_example; root_example] tree_example
                    state_example st' 7%nat E)).
    intros Ci [<-|[<-|[]]] Hleaf; [reflexivity|discriminate Hleaf].
Defined.

(** ** The corrections and initTarget *)

Section CorrectionsMore.

(** X10: the self term and the dipole correction can be applied in either
    order. *)
Theorem corrections_commute (alpha : real_t) (bodies : Bodies)
  (dipole : vec3) (numBodies : Z) (cycle : vec3) :
  selfTerm alpha (dipoleCorrection bodies dipole numBodies cycle)
  = dipoleCorrection (selfTerm alpha bodies) dipole numBodies cycle.
Proof.
  unfold selfTerm, dipoleCorrection. rewrite !map_map. apply map_ext.
  intros [X q [t0 t1 t2 t3] ib ic w]. unfold Body.set_TRG. simpl.
  f_equal. f_equal; ring.
Qed.

(** X11: in exact reals, with [numBodies], the box lengths and every
    source strength nonzero, [dipoleCorrection] with a zero dipole returns
    the bodies as they were. *)
Theorem dipoleCorrection_zero_dipole (bodies : Bodies) (numBodies : Z)
  (cycle : vec3) :
  numBodies <> 0%Z ->
  v0 cycle <> 0 -> v1 cycle <> 0 -> v2 cycle <> 0 ->
  Forall (fun B => Body.SRC B <> 0) bodies ->
  dipoleCorrection bodies vec3_zero numBodies cycle = bodies.
Proof.
  intros Hn H0 H1 H2 Hall.
  unfold dipoleCorrection. rewrite <- (map_id bodies) at 2.
  apply map_ext_in. intros B HB.
  rewrite Forall_forall in Hall. specialize (Hall B HB).
  assert (Hn' : IZR numBodies <> 0).
  { intros E. apply Hn. now apply eq_IZR. }
  assert (HV : 3 * v0 cycle * v1 cycle * v2 cycle <> 0).
  { repeat apply Rmult_integral_contrapositive_currified; auto. }
  destruct B as [X q [t0 t1 t2 t3] ib ic w]. simpl in Hall.
  unfold Body.set_TRG, norm, M_PI. simpl.
  f_equal. f_equal; field; auto.
Qed.

Lemma Rsum_shift {A : Type} (f q : A -> R) (x0 : R) (l : list A) :
  Rsum (map (fun a => (f a - x0) * q a) l)
  = Rsum (map (fun a => f a * q a) l) - x0 * Rsum (map q l).
Proof.
  induction l as [|a l IH]; simpl; [ring|]. rewrite IH. ring.
Qed.

Lemma getDipole_components (bodies : Bodies) (X0 : vec3) :
  fst (getDipole bodies X0) =
  mkvec3
    (Rsum (map (fun B => (v0 (Body.X B) - v0 X0) * Body.SRC B) bodies))
    (Rsum (map (fun B => (v1 (Body.X B) - v1 X0) * Body.SRC B) bodies))
    (Rsum (map (fun B => (v2 (Body.X B) - v2 X0) * Body.SRC B) bodies)).
Proof.
  unfold getDipole. simpl. rewrite getDipole_fold. simpl. f_equal; ring.
Qed.

(** X12: for bodies whose source strengths sum to zero, the dipole
    [getDipole] returns does not depend on the reference origin. *)
Theorem getDipole_neutral (bodies : Bodies) (X0 X0' : vec3) :
  Rsum (map Body.SRC bodies) = 0 ->
  fst (getDipole bodies X0) = fst (getDipole bodies X0').
Proof.
  intros Hq. rewrite !getDipole_components.
  rewrite !(Rsum_shift (fun B => v0 (Body.X B)) Body.SRC).
  rewrite !(Rsum_shift (fun B => v1 (Body.X B)) Body.SRC).
  rewrite !(Rsum_shift (fun B => v2 (Body.X B)) Body.SRC).
  rewrite Hq. f_equal; ring.
Qed.

Lemma initTarget_from_nth (bodies : Bodies) (i0 : Z) (i : nat) :
  nth_error (initTarget_from i0 bodies) i =
  option_map
    (fun B => Body.mk (Body.X B) (Body.SRC B) vec4_zero
                      (i0 + Z.of_nat i) 0%Z 1)
    (nth_error bodies i).
Proof.
  revert i0 i. induction bodies as [|B bodies IH]; intros i0 i; simpl.
  - destruct i; reflexivity.
  - destruct i as [|i]; simpl.
    + now rewrite Z.add_0_r.
    + rewrite IH. destruct (nth_error bodies i); simpl; [|reflexivity].
      do 2 f_equal. lia.
Qed.

Lemma initTarget_from_idem (bodies : Bodies) (i0 : Z) :
  initTarget_from i0 (initTarget_from i0 bodies) = initTarget_from i0 bodies.
Proof.
  revert i0. induction bodies as [|B bodies IH]; intros i0; simpl.
  - reflexivity.
  - now rewrite IH.
Qed.

(** X13: [initTarget] keeps the number, the order, the positions and the
    source strengths of the bodies; it clears every accumulator, numbers
    the bodies by their place in the vector, and sets the cell index to 0
    and the weight to 1; applied twice it gives what it gives once. *)
Theorem initTarget_reset (bodies : Bodies) :
  length (initTarget bodies) = length bodies
  /\ (forall i : nat,
         nth_error (initTarget bodies) i =
         option_map
           (fun B => Body.mk (Body.X B) (Body.SRC B) vec4_zero
                             (Z.of_nat i) 0%Z 1)
           (nth_error bodies i))
  /\ initTarget (initTarget bodies) = initTarget bodies.
Proof.
  unfold initTarget. split; [|split].
  - generalize 0%Z. induction bodies as [|B bodies IH]; intros z; simpl.
    + reflexivity.
    + now rewrite IH.
  - intros i. now rewrite initTarget_from_nth.
  - apply initTarget_from_idem.
Qed.

End CorrectionsMore.

Lemma dipoleCorrection_zero_dipole_witness :
  dipoleCorrection [body_at 0 0 0 1; body_at 1 0 0 (-1)] vec3_zero 2
                   (mkvec3 1 1 1)
  = [body_at 0 0 0 1; body_at 1 0 0 (-1)].
Proof.
  assert (Hn : 2%Z <> 0%Z) by discriminate.
  assert (Hc : v0 (mkvec3 1 1 1) <> 0) by (simpl; lra).
  assert (Hall : Forall (fun B => Body.SRC B <> 0)
                   [body_at 0 0 0 1; body_at 1 0 0 (-1)]).
  { constructor; [simpl; lra|]. constructor; [simpl; lra|constructor]. }
  exact (dipoleCorrection_zero_dipole
           [body_at 0 0 0 1; body_at 1 0 0 (-1)] 2 (mkvec3 1 1 1)
           Hn Hc Hc Hc Hall).
Defined.

Lemma getDipole_neutral_witness :
  fst (getDipole [body_at 0 0 0 1; body_at 1 0 0 (-1)] (mkvec3 1 2 3))
  = fst (getDipole [body_at 0 0 0 1; body_at 1 0 0 (-1)] vec3_zero).
Proof.
  apply (getDipole_neutral [body_at 0 0 0 1; body_at 1 0 0 (-1)]
           (mkvec3 1 2 3) vec3_zero).
  simpl. lra.
Defined.

Lemma initWaves_conjugate_pairs_witness :
  (In (wave_of 1 (-1) 0) (initWaves 2)
   /\ ~ In (wave_of (- 1) (- -1) (- 0)) (initWaves 2))
  \/ (~ In (wave_of 1 (-1) 0) (initWaves 2)
      /\ In (wave_of (- 1) (- -1) (- 0)) (initWaves 2)).
Proof.
  apply (initWaves_conjugate_pairs 2 1 (-1) 0).
  - lia.
  - unfold INT_MAX. lia.
  - discriminate.
  - lia.
Defined.

(** ** The traversal on a tree that is not well formed; the kernel and the
    source strength *)

Section TraversalMore.

Variable erfc : real_t -> real_t.
Variable alpha cutoff : real_t.
Variable cycle : vec3.
Variable wrap : vec3 -> vec3 -> vec3.

(** X14: when a source cell that passes the distance test has itself as
    its first child, the recursion of the functor does not end: no amount
    of fuel lets it return. *)
Theorem Neighbor_self_child (jcells : Cells) (Ci Cj : Cell.t) (j : C_iter)
  (fuel : nat) (st : State) :
  nth_error jcells j = Some Cj ->
  gap cycle wrap Ci Cj < sqrt 3 * cutoff ->
  Cell.NCHILD Cj <> 0%nat ->
  Cell.ICHILD Cj = j ->
  Neighbor erfc alpha cutoff cycle wrap fuel jcells Ci j st = Stuck OutOfFuel.
Proof.
  intros Hj Hgap Hn Hself. revert st.
  induction fuel as [|fuel IH]; intros st; [reflexivity|].
  rewrite (Neighbor_node erfc alpha cutoff cycle wrap fuel jcells Ci Cj j st
             Hj Hgap Hn).
  rewrite Hself. destruct (Cell.NCHILD Cj) as [|n]; [contradiction|].
  simpl. now rewrite IH.
Qed.

(** X15: what a pass of the kernel adds to the accumulator of the target is
    linear in the strength of the source. *)
Theorem P2P_increment_linear (c : R) (Bi Bj : Body.t) (Xp : vec3) :
  P2P_increment erfc alpha cutoff Bi (scale_source c Bj) Xp
  = vec4_scale c (P2P_increment erfc alpha cutoff Bi Bj Xp).
Proof.
  unfold P2P_increment, P2P_pair, scale_source. simpl.
  destruct (Rltb 0 _ && Rltb _ _); unfold vec4_sub, vec4_scale; simpl;
    f_equal; ring.
Qed.

End TraversalMore.

Lemma Neighbor_self_child_witness :
  Neighbor erfc_example 1 1 (mkvec3 1 1 1) (fun dX _ => dX) 5
           [loop_example] leaf_example 0%nat state_example
  = Stuck OutOfFuel.
Proof.
  apply (Neighbor_self_child erfc_example 1 1 (mkvec3 1 1 1) (fun dX _ => dX)
           [loop_example] leaf_example loop_example 0%nat 5 state_example).
  - reflexivity.
  - unfold gap. simpl.
    replace (length2 (vec3_sub vec3_zero vec3_zero)) with 0
      by (unfold length2, vec3_sub, vec3_zero; simpl; ring).
    rewrite sqrt_0.
    assert (0 < sqrt 3) by (apply sqrt_lt_R0; lra). lra.
  - discriminate.
  - reflexivity.
Defined.
